(** * Notes application: the note listing, search and pagination flow

    A shallow embedding of [pages/Home.tsx] (the query controller and the
    list renderer) together with the note store it drives, and the
    properties of the listing flow proved over it.

    Conventions of the embedding:
    - a JavaScript string is a [string] (its sequence of characters);
    - [last_update] holds the value of [new Date(last_update).getTime()],
      an integer number of milliseconds;
    - JavaScript numbers that count things ([total], [page], [per_page])
      are integers in [Z];
    - an array is a [list]; where the identity of an array matters (the
      in-place [sort]), arrays live in a heap indexed by locations. *)

From Stdlib Require Import ZArith List String Ascii Bool Sorted Permutation Lia.
From stdpp Require Import base tactics option list gmap strings.

Import ListNotations.
Local Open Scope string_scope.
Local Open Scope list_scope.
Local Open Scope Z_scope.

(** * Part I: the program *)

(** ** Strings: the JavaScript built-ins the renderer calls *)

Module JsString.

(** [c] is an upper-case letter. A character is a code unit below 256:
    the letters [A]..[Z], and the code units 192 to 222 except the
    multiplication sign (215). *)
Definition is_upper (c : ascii) : bool :=
  ((65 <=? nat_of_ascii c) && (nat_of_ascii c <=? 90)
   || (192 <=? nat_of_ascii c) && (nat_of_ascii c <=? 222)
      && negb (nat_of_ascii c =? 215))%nat.

(** The lower-case form of a character: 32 above, for an upper-case
    letter. *)
Definition lower_char (c : ascii) : ascii :=
  if is_upper c then ascii_of_nat (nat_of_ascii c + 32) else c.

(** [String.prototype.toLowerCase]. *)
Fixpoint toLowerCase (s : string) : string :=
  match s with
  | EmptyString => EmptyString
  | String c s' => String (lower_char c) (toLowerCase s')
  end.

(** [String.prototype.startsWith]: [t] is a prefix of [s]. *)
Fixpoint startsWith (s t : string) : bool :=
  match t, s with
  | EmptyString, _ => true
  | String _ _, EmptyString => false
  | String b t', String a s' => Ascii.eqb a b && startsWith s' t'
  end.

(** [String.prototype.includes]: [t] occurs in [s] at some position. *)
Fixpoint includes (s t : string) : bool :=
  startsWith s t ||
  match s with
  | EmptyString => false
  | String _ s' => includes s' t
  end.

(** What "[t] is a substring of [s]" means. *)
Definition substring_of (t s : string) : Prop :=
  exists pre post : string, s = pre +:+ t +:+ post.

(** [s] contains [t] when the case of letters is disregarded. *)
Definition contains_ci (s t : string) : Prop :=
  substring_of (toLowerCase t) (toLowerCase s).

(** [u] is an upper-case letter and [l] is that letter in lower case:
    [A] and [a] up to [Z] and [z], and likewise the accented letters at
    192 to 222 with those at 224 to 254 (215 and 247 are signs, not
    letters). *)
Definition case_pair (u l : ascii) : bool :=
  let n := nat_of_ascii u in
  let k := nat_of_ascii l in
  (((65 <=? n) && (n <=? 90)
    || (192 <=? n) && (n <=? 222) && negb (n =? 215))
   && (k =? n + 32))%nat.

(** The two characters are the same letter, in whatever case, or the same
    character. *)
Definition same_letter (a b : ascii) : bool :=
  Ascii.eqb a b || case_pair a b || case_pair b a.

(** The two texts read the same when the case of letters is
    disregarded. *)
Fixpoint same_text (s t : string) : bool :=
  match s, t with
  | EmptyString, EmptyString => true
  | String a s', String b t' => same_letter a b && same_text s' t'
  | _, _ => false
  end.


(** Every character. *)
Definition all_chars : list ascii := map ascii_of_nat (seq 0 256).

End JsString.

(** ** Arrays: [Array.prototype.sort] and [Array.prototype.filter] *)

Module JsArray.

Section Sort.
Context {A : Type}.

(** The comparison function handed to [sort]: negative when the first
    argument goes first, positive when the second does, zero when the two
    compare equal. *)
Variable cmp : A -> A -> Z.

(** [insert x l] puts [x], which stood before every element of [l], into
    the sorted [l]: [x] moves only past elements it is strictly greater
    than. *)
Fixpoint insert (x : A) (l : list A) : list A :=
  match l with
  | [] => [x]
  | y :: l' => if cmp x y <=? 0 then x :: y :: l' else y :: insert x l'
  end.

(** [Array.prototype.sort(cmp)]. For a consistent comparison function the
    language fixes the result: the elements in ascending order,
    equal-comparing elements in their original order (the sort is stable).
    Insertion from the right computes that arrangement. *)
Fixpoint sort (l : list A) : list A :=
  match l with
  | [] => []
  | x :: l' => insert x (sort l')
  end.

(** [a] may stand before [b] in an array sorted by [cmp]. *)
Definition cmp_le (a b : A) : Prop := cmp a b <= 0.

(** [a] and [b] compare equal. *)
Definition cmp_eqb (a b : A) : bool := cmp a b =? 0.

(** A consistent comparison function, as the language requires of the
    argument of [sort]. *)
Record Consistent : Prop := {
  cmp_antisym : forall a b, Z.sgn (cmp a b) = - Z.sgn (cmp b a);
  cmp_trans : forall a b c, cmp a b <= 0 -> cmp b c <= 0 -> cmp a c <= 0
}.

End Sort.

(** Arrays are objects: a variable holds a reference into a heap. *)
Definition loc : Type := positive.

Section Heap.
Context {A : Type}.

(** A new array, at a location no existing array has. *)
Definition alloc (h : gmap loc (list A)) (xs : list A) : gmap loc (list A) * loc :=
  let l := fresh (dom h) in (<[l := xs]> h, l).

(** [arr.filter(p)] builds a new array and leaves [arr] alone. *)
Definition filter_ref (p : A -> bool) (h : gmap loc (list A)) (arr : loc)
  : option (gmap loc (list A) * loc) :=
  match h !! arr with
  | Some xs => Some (alloc h (List.filter p xs))
  | None => None
  end.

(** [arr.sort(cmp)] sorts [arr] in place and returns [arr] itself. *)
Definition sort_ref (cmp : A -> A -> Z) (h : gmap loc (list A)) (arr : loc)
  : option (gmap loc (list A) * loc) :=
  match h !! arr with
  | Some xs => Some (<[arr := sort cmp xs]> h, arr)
  | None => None
  end.

End Heap.

End JsArray.

(** ** Collation: [String.prototype.localeCompare] on ASCII text *)

Module Collation.

(** Lexicographic comparison of two key sequences. *)
Fixpoint lex (k1 k2 : list Z) : comparison :=
  match k1, k2 with
  | [], [] => Eq
  | [], _ :: _ => Lt
  | _ :: _, [] => Gt
  | a :: k1', b :: k2' =>
      match a ?= b with
      | Eq => lex k1' k2'
      | c => c
      end
  end.

(** First level of the collation: the letters, without their case. *)
Definition primary (s : string) : list Z :=
  map (fun c => Z.of_nat (nat_of_ascii (JsString.lower_char c)))
      (list_ascii_of_string s).

(** Last level of the collation: the case of each letter, lower case
    before upper case. *)
Definition tertiary (s : string) : list Z :=
  map (fun c => if JsString.is_upper c then 1 else 0) (list_ascii_of_string s).

Definition collate (a b : string) : comparison :=
  match lex (primary a) (primary b) with
  | Eq => lex (tertiary a) (tertiary b)
  | c => c
  end.

(** A stand-in for [a.localeCompare(b)], used where a concrete comparison
    is needed: it agrees with the platform's collation on texts made of
    ASCII letters (compared without regard to case first, lower case
    first between texts that differ in case only). On other characters
    it orders by code, which the platform does not. *)
Definition localeCompare (a b : string) : Z :=
  match collate a b with
  | Lt => -1
  | Eq => 0
  | Gt => 1
  end.

(** [c] is not [Gt]. *)
Definition not_gt (c : comparison) : Prop := c <> Gt.



(** The place of a letter in the alphabet, whatever its case. *)
Definition place (c : ascii) : Z :=
  if (nat_of_ascii c <=? 90)%nat then Z.of_nat (nat_of_ascii c) - 65
  else Z.of_nat (nat_of_ascii c) - 97.

(** [a] comes before [b] in the dictionary, the case of letters
    disregarded. *)
Definition before (a b : string) : Prop :=
  lex (map place (list_ascii_of_string a)) (map place (list_ascii_of_string b)) = Lt.


End Collation.

(** ** The data model *)

(** A note, with the fields of the notes table. *)
Record Note : Type := mkNote {
  note_id : string;
  note_title : string;
  note_content : string;
  user_id : string;
  created_on : Z;
  last_update : Z
}.

(** The sort modes of the list: ['newest' | 'oldest' | 'title']. *)
Inductive SortBy : Type := Newest | Oldest | Title.

(** Outcome of a call to the collaborating API. *)
Inductive Response (A : Type) : Type :=
| Success (value : A)
| Failure (message : string).
Arguments Success {A} value.
Arguments Failure {A} message.

(** Body of [GET /notes?page=&per_page=&search=]. *)
Record PageResult : Type := mkPageResult {
  r_notes : list Note;
  r_total : Z;
  r_page : Z;
  r_per_page : Z
}.

(** Arguments of one [loadPage] call, fixed when the call is made. *)
Record Request : Type := mkRequest {
  q_page : Z;
  q_per_page : Z;
  q_search : string
}.

(** ** The collaborating API *)

Module Api.

(** Message of the not-found failure of a mutation call. *)
Definition not_found : string := "Note not found".

(** [n] is the note with identifier [id]. *)
Definition has_id (id : string) (n : Note) : bool := String.eqb (note_id n) id.

(** Modelled from the spec: the server side of [DELETE /notes/{id}], which
    is not part of these sources. The server holds the collection [db];
    the call answers with a success or failure signal only: success when a
    note with that identifier exists, which it then deletes, and the
    not-found failure otherwise. *)
Definition delete_note (id : string) (db : list Note) : Response unit * list Note :=
  if existsb (has_id id) db
  then (Success tt, List.filter (fun n => negb (has_id id n)) db)
  else (Failure not_found, db).

End Api.

(** ** The note store *)

Module NotesStore.

(** Modelled from the spec: the observable state of the note store
    ([store/notesStore], not part of these sources): the cached notes, the
    pagination cursors, the loading flag and the error message. *)
Record Store : Type := mkStore {
  notes : list Note;
  total : Z;
  page : Z;
  per_page : Z;
  loading : bool;
  error : option string
}.

(** Modelled from the spec: [loadPage] up to its suspension point; the
    store's source is missing. The loading indicator is set for the
    duration of the call. *)
Definition loadPage_start (s : Store) : Store :=
  {| notes := notes s; total := total s; page := page s; per_page := per_page s;
     loading := true; error := error s |}.

(** Modelled from the spec: the cache merge of [loadPage], decided by the
    page index the call was made with: replace for page 1; otherwise
    append, in order, with the accumulated notes capped at the total the
    response reports (the store's source is missing; sections 3, 4.1 and
    8 of the spec). *)
Definition merge (q : Request) (r : PageResult) (cached : list Note) : list Note :=
  if q_page q =? 1 then r_notes r
  else firstn (Z.to_nat (r_total r)) (cached ++ r_notes r).

(** Modelled from the spec: [loadPage] from the moment its request
    settles; the store's source is missing. On success the cache is
    replaced ([pageIndex == 1]) or appended to (up to the total), and
    [total], [page] and
    [per_page] are taken from the response; on failure the message is
    recorded and the cache is left as it is. Either way the loading
    indicator is reset. *)
Definition loadPage_settle (q : Request) (r : Response PageResult) (s : Store) : Store :=
  match r with
  | Success res =>
      {| notes := merge q res (notes s);
         total := r_total res; page := r_page res; per_page := r_per_page res;
         loading := false; error := error s |}
  | Failure message =>
      {| notes := notes s; total := total s; page := page s; per_page := per_page s;
         loading := false; error := Some message |}
  end.

(** Modelled from the spec: a [loadPage] call that no other call
    overlaps, against an API that answers [api q]. *)
Definition loadPage (api : Request -> Response PageResult) (q : Request) (s : Store) : Store :=
  loadPage_settle q (api q) (loadPage_start s).

(** Modelled from the spec: removal of the cache entry with identifier
    [id] (one entry; identifiers are unique). *)
Fixpoint remove_entry (id : string) (cached : list Note) : list Note :=
  match cached with
  | [] => []
  | n :: rest => if Api.has_id id n then rest else n :: remove_entry id rest
  end.

(** Modelled from the spec: [deleteNote] from the moment the API call
    settles; the store's source is missing. On success the cache entry is
    removed and the displayed count decremented; on failure the error is
    surfaced and the cache is not touched. *)
Definition deleteNote_settle (id : string) (r : Response unit) (s : Store) : Store :=
  match r with
  | Success _ =>
      {| notes := remove_entry id (notes s); total := total s - 1;
         page := page s; per_page := per_page s;
         loading := loading s; error := error s |}
  | Failure message =>
      {| notes := notes s; total := total s; page := page s; per_page := per_page s;
         loading := loading s; error := Some message |}
  end.

(** Modelled from the spec: [deleteNote(id)] run against the server
    collection [db]. *)
Definition deleteNote (id : string) (st : Store * list Note) : Store * list Note :=
  let (r, db') := Api.delete_note id (snd st) in
  (deleteNote_settle id r (fst st), db').

(** Modelled from the spec: [clearError] resets the error field. *)
Definition clearError (s : Store) : Store :=
  {| notes := notes s; total := total s; page := page s; per_page := per_page s;
     loading := loading s; error := None |}.

End NotesStore.

(** ** [Home]: the list renderer *)

Module Home.
Import NotesStore.

Section Renderer.

(** [String.prototype.localeCompare] of the platform the page runs on. *)
Variable localeCompare : string -> string -> Z.

(** The predicate handed to [notes.filter]. *)
Definition matches (searchTerm : string) (note : Note) : bool :=
  JsString.includes (JsString.toLowerCase (note_title note)) (JsString.toLowerCase searchTerm)
  || JsString.includes (JsString.toLowerCase (note_content note)) (JsString.toLowerCase searchTerm).

(** The comparison functions of the three sort modes. *)
Definition byNewest (a b : Note) : Z := last_update b - last_update a.
Definition byOldest (a b : Note) : Z := last_update a - last_update b.
Definition byTitle (a b : Note) : Z := localeCompare (note_title a) (note_title b).

Definition comparator (sortBy : SortBy) : Note -> Note -> Z :=
  match sortBy with
  | Newest => byNewest
  | Oldest => byOldest
  | Title => byTitle
  end.

(** The value [filteredAndSortedNotes] computes from the cached notes, the
    raw search term and the sort mode. *)
Definition filteredAndSortedNotes
  (notes : list Note) (searchTerm : string) (sortBy : SortBy) : list Note :=
  let filtered := List.filter (matches searchTerm) notes in
  match sortBy with
  | Newest => JsArray.sort byNewest filtered
  | Oldest => JsArray.sort byOldest filtered
  | Title => JsArray.sort byTitle filtered
  end.

(** The same computation on arrays with identity: [notes] is a reference
    to the store's array, [filter] allocates [filtered], and [sort] works
    on [filtered] in place and returns it. *)
Definition filteredAndSortedNotes_ref
  (h : gmap JsArray.loc (list Note)) (notes : JsArray.loc)
  (searchTerm : string) (sortBy : SortBy)
  : option (gmap JsArray.loc (list Note) * JsArray.loc) :=
  match JsArray.filter_ref (matches searchTerm) h notes with
  | Some (h1, filtered) =>
      match sortBy with
      | Newest => JsArray.sort_ref byNewest h1 filtered
      | Oldest => JsArray.sort_ref byOldest h1 filtered
      | Title => JsArray.sort_ref byTitle h1 filtered
      end
  | None => None
  end.

(** What the page shows below the search controls. *)
Inductive View : Type :=
| Spinner
| CreateFirstNote
| NoMatches
| Grid (cards : list Note) (loadMoreButton : bool).

(** The body of the page: the early return while the first load is under
    way, then the conditional on the derived list and on the cache. *)
Definition render (s : Store) (searchTerm : string) (sortBy : SortBy) : View :=
  if loading s && (length (notes s) =? 0)%nat then Spinner
  else
    let shown := filteredAndSortedNotes (notes s) searchTerm sortBy in
    if (length shown =? 0)%nat then
      if (length (notes s) =? 0)%nat then CreateFirstNote else NoMatches
    else Grid shown (Z.of_nat (length (notes s)) <? total s).

End Renderer.

(** ** [Home]: the query controller *)

(** [handleLoadMore]: the call [loadNotes(page + 1, per_page,
    debouncedSearchTerm)], with the cursors of the store snapshot the page
    was rendered from. *)
Definition handleLoadMore (s : Store) (debouncedSearchTerm : string) : Request :=
  {| q_page := page s + 1; q_per_page := per_page s; q_search := debouncedSearchTerm |}.

(** [handleDeleteNote]: [deleteNote] runs only when the user confirms. *)
Definition handleDeleteNote (confirmed : bool) (noteId : string)
  (st : Store * list Note) : Store * list Note :=
  if confirmed then deleteNote noteId st else st.

(** The dependencies of the loading effect. [user] is the reference to the
    signed-in user's object ([None] for [null]); [loadNotes] is the
    store's action, the same function at every render. *)
Record LoadDeps : Type := mkLoadDeps {
  d_user : option JsArray.loc;
  d_debouncedSearchTerm : string;
  d_per_page : Z
}.

(** The dependencies differ from those of the previous render. *)
Definition deps_changed (prev cur : LoadDeps) : bool :=
  negb (bool_decide (d_user prev = d_user cur)
        && String.eqb (d_debouncedSearchTerm prev) (d_debouncedSearchTerm cur)
        && (d_per_page prev =? d_per_page cur)).

(** The body of the loading effect: the [loadNotes] call it makes, if
    any. *)
Definition load_effect (cur : LoadDeps) : option Request :=
  match d_user cur with
  | Some _ =>
      Some {| q_page := 1; q_per_page := d_per_page cur;
              q_search := d_debouncedSearchTerm cur |}
  | None => None
  end.

(** [useEffect(body, deps)] after a render: the body runs on mount ([prev]
    is [None]) and whenever a dependency changed. *)
Definition after_render (prev : option LoadDeps) (cur : LoadDeps) : option Request :=
  match prev with
  | None => load_effect cur
  | Some p => if deps_changed p cur then load_effect cur else None
  end.

End Home.

(** ** [Home]: the debounce of the search term *)

Module Debounce.

(** The inactivity window, in milliseconds. *)
Definition window : Z := 500.

(** The two pieces of state the debounce effect connects, the pending
    [setTimeout] (the time it is due and the [searchTerm] its callback
    captured), and the log of the calls of [setDebouncedSearchTerm] so
    far (time and value, oldest first). *)
Record State : Type := mkState {
  searchTerm : string;
  debouncedSearchTerm : string;
  timer : option (Z * string);
  updates : list (Z * string)
}.

(** The component right after it mounts at time [t0]: the effect has run
    once and armed the timer. *)
Definition mount (t0 : Z) : State :=
  {| searchTerm := ""; debouncedSearchTerm := ""; timer := Some (t0 + window, "");
     updates := [] |}.

(** Time passes until [t]: a timer that is due runs its callback,
    [setDebouncedSearchTerm(searchTerm)]. The render that follows leaves
    [searchTerm] as it is, so the effect does not run again. *)
Definition elapse (t : Z) (st : State) : State :=
  match timer st with
  | Some (due, captured) =>
      if due <=? t then
        {| searchTerm := searchTerm st; debouncedSearchTerm := captured;
           timer := None; updates := updates st ++ [(due, captured)] |}
      else st
  | None => st
  end.

(** A keystroke at time [t]: [onChange] calls [setSearchTerm(value)]. When
    the term changed, the component renders again and the effect's
    clean-up clears the pending timer before the effect arms a new one.
    Setting the state to the value it has causes no render, and the
    effect, which depends on [searchTerm] alone, does not run. *)
Definition onChange (t : Z) (value : string) (st : State) : State :=
  let st1 := elapse t st in
  if String.eqb value (searchTerm st1) then st1
  else
    {| searchTerm := value; debouncedSearchTerm := debouncedSearchTerm st1;
       timer := Some (t + window, value); updates := updates st1 |}.

(** A sequence of keystrokes, each with its time and the value of the
    input after it. *)
Fixpoint type (keys : list (Z * string)) (st : State) : State :=
  match keys with
  | [] => st
  | (t, value) :: keys' => type keys' (onChange t value st)
  end.

(** Consecutive keystrokes, the first one at [t], are less than [window]
    apart. *)
Fixpoint rapid (t : Z) (keys : list (Z * string)) : Prop :=
  match keys with
  | [] => True
  | (t', _) :: keys' => t <= t' < t + window /\ rapid t' keys'
  end.

(** Every keystroke changes the text of the input, which reads [current]
    before the first one. *)
Fixpoint changing (current : string) (keys : list (Z * string)) : Prop :=
  match keys with
  | [] => True
  | (_, value) :: keys' => value <> current /\ changing value keys'
  end.

End Debounce.

(** ** Example scenarios *)

(** The cache of the example scenario. *)
Definition groceries (owner : string) (created T2 : Z) : Note :=
  mkNote "1" "Groceries" "milk" owner created T2.
Definition todo (owner : string) (created T1 : Z) : Note :=
  mkNote "2" "Todo" "gym" owner created T1.

(** A note with the given identifier and title, for the scenarios in
    which only titles matter. *)
Definition titled (id title : string) : Note := mkNote id title "" "" 0 0.

(** The store while the first page is being loaded. *)
Definition first_load_store : NotesStore.Store :=
  {| NotesStore.notes := []; NotesStore.total := 0; NotesStore.page := 1;
     NotesStore.per_page := 10; NotesStore.loading := true; NotesStore.error := None |}.

(** Dependencies of the loading effect while nobody is signed in, before
    and after the debounced term changed to "milk". *)
Definition signed_out_before : Home.LoadDeps :=
  {| Home.d_user := None; Home.d_debouncedSearchTerm := ""; Home.d_per_page := 10 |}.
Definition signed_out_after : Home.LoadDeps :=
  {| Home.d_user := None; Home.d_debouncedSearchTerm := "milk"; Home.d_per_page := 10 |}.

(** The same with a signed-in user. *)
Definition signed_in_before : Home.LoadDeps :=
  {| Home.d_user := Some 1%positive; Home.d_debouncedSearchTerm := ""; Home.d_per_page := 10 |}.
Definition signed_in_after : Home.LoadDeps :=
  {| Home.d_user := Some 1%positive; Home.d_debouncedSearchTerm := "milk";
     Home.d_per_page := 10 |}.

(** A store that has loaded the first of two pages of one note each. *)
Definition one_of_two : NotesStore.Store :=
  {| NotesStore.notes := [titled "1" "alpha"]; NotesStore.total := 2; NotesStore.page := 1;
     NotesStore.per_page := 1; NotesStore.loading := false; NotesStore.error := None |}.

(** The second page of that listing, as the API returns it. *)
Definition second_page : PageResult :=
  {| r_notes := [titled "2" "beta"]; r_total := 2; r_page := 2; r_per_page := 1 |}.

(** A store and a server that both hold the two notes of the example
    scenario. *)
Definition two_notes : NotesStore.Store :=
  {| NotesStore.notes := [groceries "u" 0 2; todo "u" 0 1]; NotesStore.total := 2;
     NotesStore.page := 1; NotesStore.per_page := 10; NotesStore.loading := false;
     NotesStore.error := None |}.
Definition two_notes_db : list Note := [groceries "u" 0 2; todo "u" 0 1].

(** Typing "gym" quickly, starting 100 ms after the page mounted. *)
Definition typing_gym : list (Z * string) := [(100, "g"); (300, "gy"); (700, "gym")].

(** ** [Home]: the note form *)

Module NoteForm.

Section Form.

(** The type [NoteFormData] of the form's content. *)
Variable NoteFormData : Type.

(** The store action a submit calls, with its arguments. *)
Inductive StoreCall : Type :=
| AddNote (data : NoteFormData)
| UpdateNote (id : string) (data : NoteFormData).

(** The two pieces of state behind the modal form. *)
Record State : Type := mkState {
  showNoteForm : bool;
  editingNote : option Note
}.

(** [useState(false)] and [useState<Note | null>(null)]. *)
Definition initial : State := {| showNoteForm := false; editingNote := None |}.

Definition handleCreateNote (st : State) : State :=
  {| showNoteForm := true; editingNote := None |}.

Definition handleEditNote (note : Note) (st : State) : State :=
  {| showNoteForm := true; editingNote := Some note |}.

(** [handleSubmitNote] up to its [await]: the store call it makes, chosen
    by the note being edited when the form is submitted. *)
Definition handleSubmitNote_call (data : NoteFormData) (st : State) : StoreCall :=
  match editingNote st with
  | Some note => UpdateNote (note_id note) data
  | None => AddNote data
  end.

(** [handleSubmitNote] after its [await], which it reaches only when the
    store call is fulfilled: the form is closed and cleared. *)
Definition handleSubmitNote_resume (st : State) : State :=
  {| showNoteForm := false; editingNote := None |}.

Definition handleCloseForm (st : State) : State :=
  {| showNoteForm := false; editingNote := None |}.

(** The title of the modal. *)
Definition modalTitle (st : State) : string :=
  match editingNote st with
  | Some _ => "Edit Note"
  | None => "Create New Note"
  end.

(** What happens to the form: the user's actions, and the settling of a
    store call a submit is waiting for. *)
Inductive Action : Type :=
| ClickNew
| ClickEdit (note : Note)
| Submit (data : NoteFormData)
| Fulfilled
| Rejected
| Close.

(** One action, on the form and the number of submits waiting for their
    store call: the new state, and the store call made, if any. A call
    that is rejected makes the [await] throw, so the rest of the handler
    does not run. *)
Definition step (st : State * nat) (a : Action) : (State * nat) * option StoreCall :=
  match a with
  | ClickNew => ((handleCreateNote (fst st), snd st), None)
  | ClickEdit note => ((handleEditNote note (fst st), snd st), None)
  | Submit data => ((fst st, S (snd st)), Some (handleSubmitNote_call data (fst st)))
  | Fulfilled =>
      match snd st with
      | S waiting => ((handleSubmitNote_resume (fst st), waiting), None)
      | O => (st, None)
      end
  | Rejected => ((fst st, pred (snd st)), None)
  | Close => ((handleCloseForm (fst st), snd st), None)
  end.

(** A sequence of actions, from [st]: the final state and the store calls
    made, oldest first. *)
Fixpoint run (st : State * nat) (actions : list Action) : (State * nat) * list StoreCall :=
  match actions with
  | [] => (st, [])
  | a :: rest =>
      let (st1, call) := step st a in
      let (st2, calls) := run st1 rest in
      (st2, match call with Some c => c :: calls | None => calls end)
  end.

End Form.

Arguments AddNote {NoteFormData} data.
Arguments UpdateNote {NoteFormData} id data.
Arguments ClickNew {NoteFormData}.
Arguments ClickEdit {NoteFormData} note.
Arguments Submit {NoteFormData} data.
Arguments Fulfilled {NoteFormData}.
Arguments Rejected {NoteFormData}.
Arguments Close {NoteFormData}.
Arguments step {NoteFormData} st a.
Arguments run {NoteFormData} st actions.
Arguments handleSubmitNote_call {NoteFormData} data st.

(** The form keeps no note to edit while it is closed. *)
Definition consistent (st : State) : Prop :=
  showNoteForm st = false -> editingNote st = None.

(** The number of submits among the actions. *)
Fixpoint submits {NoteFormData : Type} (actions : list (Action NoteFormData)) : nat :=
  match actions with
  | [] => 0
  | Submit _ :: rest => S (submits rest)
  | _ :: rest => submits rest
  end.

End NoteForm.

(** ** [Home]: debounce and loading effect together *)

Module Controller.

(** The dependencies of the loading effect at a render, with the debounced
    term read from the debounce state. *)
Definition deps (user : option JsArray.loc) (per_page : Z) (st : Debounce.State)
  : Home.LoadDeps :=
  {| Home.d_user := user;
     Home.d_debouncedSearchTerm := Debounce.debouncedSearchTerm st;
     Home.d_per_page := per_page |}.

(** Consecutive keystrokes, the first one at [t], are at least [window]
    apart. *)
Fixpoint slow (t : Z) (keys : list (Z * string)) : Prop :=
  match keys with
  | [] => True
  | (t', _) :: keys' => t + Debounce.window <= t' /\ slow t' keys'
  end.

(** The update a keystroke leads to when nothing cancels its timer. *)
Definition due (key : Z * string) : Z * string := (fst key + Debounce.window, snd key).

(** What holds of the debounce state at any time: a pending timer has
    captured the current raw term, and with no timer pending the
    debounced term is the raw term. *)
Definition settled_or_pending (st : Debounce.State) : Prop :=
  match Debounce.timer st with
  | Some (_, captured) => captured = Debounce.searchTerm st
  | None => Debounce.debouncedSearchTerm st = Debounce.searchTerm st
  end.

End Controller.

(** ** Text: white space, [trim] and the e-mail pattern *)

Module JsText.

(** White space as [trim] and the class [\s] understand it, among the
    characters below 256: tab, line feed, vertical tab, form feed,
    carriage return, space and no-break space. *)
Definition is_space (c : ascii) : bool :=
  ((9 <=? nat_of_ascii c) && (nat_of_ascii c <=? 13)
   || (nat_of_ascii c =? 32) || (nat_of_ascii c =? 160))%nat.

(** The class [\S]. *)
Definition nonspace (c : ascii) : bool := negb (is_space c).

Fixpoint trimStart (s : list ascii) : list ascii :=
  match s with
  | [] => []
  | c :: s' => if is_space c then trimStart s' else s
  end.

Fixpoint trimEnd (s : list ascii) : list ascii :=
  match s with
  | [] => []
  | c :: s' =>
      match trimEnd s' with
      | [] => if is_space c then [] else [c]
      | r => c :: r
      end
  end.

(** [String.prototype.trim], on the characters of the string. *)
Definition trim (s : string) : list ascii :=
  trimEnd (trimStart (list_ascii_of_string s)).

(** [!s] for a string: the empty string is the only falsy one. *)
Definition is_empty (s : list ascii) : bool :=
  match s with
  | [] => true
  | _ :: _ => false
  end.

(** The regular expressions the pages use: a character class, a literal
    character, [r+] and concatenation. *)
Inductive Regex : Type :=
| Class (p : ascii -> bool)
| Lit (c : ascii)
| Plus (r : Regex)
| Seq (r1 r2 : Regex).

(** [Matches r s]: the whole of [s] is matched by [r]. *)
Inductive Matches : Regex -> list ascii -> Prop :=
| MClass (p : ascii -> bool) (c : ascii) : p c = true -> Matches (Class p) [c]
| MLit (c : ascii) : Matches (Lit c) [c]
| MPlusOne (r : Regex) (s : list ascii) : Matches r s -> Matches (Plus r) s
| MPlusMore (r : Regex) (s1 s2 : list ascii) :
    Matches r s1 -> Matches (Plus r) s2 -> Matches (Plus r) (s1 ++ s2)
| MSeq (r1 r2 : Regex) (s1 s2 : list ascii) :
    Matches r1 s1 -> Matches r2 s2 -> Matches (Seq r1 r2) (s1 ++ s2).

(** [r.test(s)] for a pattern without anchors: some part of [s] is
    matched by [r]. *)
Definition Test (r : Regex) (s : list ascii) : Prop :=
  exists pre m post, s = pre ++ m ++ post /\ Matches r m.

(** The pattern [/\S+@\S+\.\S+/]. *)
Definition emailPattern : Regex :=
  Seq (Plus (Class nonspace))
    (Seq (Lit "@")
       (Seq (Plus (Class nonspace))
          (Seq (Lit ".") (Plus (Class nonspace))))).

(** [s] starts with a dot and a non-space character. *)
Definition dot_nonspace (s : list ascii) : bool :=
  match s with
  | d :: c :: _ => Ascii.eqb d "." && nonspace c
  | _ => false
  end.

(** [s] starts with [\S+\.\S]. *)
Fixpoint domain (s : list ascii) : bool :=
  match s with
  | [] => false
  | c :: s' => nonspace c && (dot_nonspace s' || domain s')
  end.

(** Some ["@"] of [s] stands after a non-space character ([prev] tells
    whether the character before [s] is one) and before [\S+\.\S]. *)
Fixpoint at_sign (prev : bool) (s : list ascii) : bool :=
  match s with
  | [] => false
  | c :: s' => prev && Ascii.eqb c "@" && domain s' || at_sign (nonspace c) s'
  end.

(** [/\S+@\S+\.\S+/.test(s)], computed in one pass over [s]. *)
Definition test_email (s : string) : bool := at_sign false (list_ascii_of_string s).

(** Every character of [s] is a non-space character. *)
Definition all_nonspace (s : list ascii) : bool := forallb nonspace s.

(** [s] is a non-empty run of non-space characters. *)
Definition run_of_nonspace (s : list ascii) : Prop :=
  s <> [] /\ all_nonspace s = true.

(** [s] has a character that is not white space. *)
Definition not_blank (s : string) : Prop :=
  exists c, In c (list_ascii_of_string s) /\ nonspace c = true.

End JsText.

(** ** [SignIn] *)

Module SignIn.

(** The [errors] object: [{ email?: string; password?: string }]. *)
Record Errors : Type := mkErrors {
  email : option string;
  password : option string
}.

(** [validate]: the errors it sets, and whether there are none. *)
Definition validate (email password : string) : Errors * bool :=
  let email_error :=
    if JsText.is_empty (JsText.trim email) then Some "Email is required"
    else if negb (JsText.test_email email) then Some "Invalid email address"
    else None in
  let password_error :=
    if JsText.is_empty (JsText.trim password) then Some "Password is required"
    else None in
  ({| email := email_error; password := password_error |},
   match email_error, password_error with
   | None, None => true
   | _, _ => false
   end).

(** [handleSubmit]: the errors displayed afterwards and the arguments of
    the [login] call, when one is made. *)
Definition handleSubmit (email password : string) : Errors * option (string * string) :=
  let (newErrors, ok) := validate email password in
  (newErrors, if ok then Some (email, password) else None).

End SignIn.

(** ** [SignUp] *)

Module SignUp.

Record FormData : Type := mkFormData {
  userName : string;
  email : string;
  password : string;
  confirmPassword : string
}.

(** The keys of the form data. *)
Inductive Field : Type := UserName | Email | Password | ConfirmPassword.

#[global] Instance Field_eq_dec : EqDecision Field.
Proof. solve_decision. Defined.

Definition key (field : Field) : string :=
  match field with
  | UserName => "userName"
  | Email => "email"
  | Password => "password"
  | ConfirmPassword => "confirmPassword"
  end.

Definition get (field : Field) (formData : FormData) : string :=
  match field with
  | UserName => userName formData
  | Email => email formData
  | Password => password formData
  | ConfirmPassword => confirmPassword formData
  end.

(** [{ ...prev, [field]: value }]. *)
Definition set (field : Field) (value : string) (prev : FormData) : FormData :=
  match field with
  | UserName => {| userName := value; email := email prev; password := password prev;
                   confirmPassword := confirmPassword prev |}
  | Email => {| userName := userName prev; email := value; password := password prev;
                confirmPassword := confirmPassword prev |}
  | Password => {| userName := userName prev; email := email prev; password := value;
                   confirmPassword := confirmPassword prev |}
  | ConfirmPassword => {| userName := userName prev; email := email prev;
                          password := password prev; confirmPassword := value |}
  end.

(** [newErrors[field] = message], when a check failed. *)
Definition record (field : Field) (message : option string)
  (newErrors : gmap string string) : gmap string string :=
  match message with
  | Some m => <[key field := m]> newErrors
  | None => newErrors
  end.

Definition userName_error (formData : FormData) : option string :=
  if JsText.is_empty (JsText.trim (userName formData)) then Some "Username is required"
  else if (length (JsText.trim (userName formData)) <? 2)%nat
       then Some "Username must be at least 2 characters"
       else None.

Definition email_error (formData : FormData) : option string :=
  if JsText.is_empty (JsText.trim (email formData)) then Some "Email is required"
  else if negb (JsText.test_email (email formData)) then Some "Invalid email address"
  else None.

Definition password_error (formData : FormData) : option string :=
  if (String.length (password formData) =? 0)%nat then Some "Password is required"
  else if (String.length (password formData) <? 6)%nat
       then Some "Password must be at least 6 characters"
       else None.

Definition confirmPassword_error (formData : FormData) : option string :=
  if (String.length (confirmPassword formData) =? 0)%nat
  then Some "Please confirm your password"
  else if negb (String.eqb (password formData) (confirmPassword formData))
       then Some "Passwords do not match"
       else None.

(** [validate]: the errors it sets, and whether the object has no keys. *)
Definition validate (formData : FormData) : gmap string string * bool :=
  let newErrors :=
    record ConfirmPassword (confirmPassword_error formData)
      (record Password (password_error formData)
         (record Email (email_error formData)
            (record UserName (userName_error formData) ∅))) in
  (newErrors, (size newErrors =? 0)%nat).

(** [errors[field]] is truthy: a message is there, and it is not empty. *)
Definition has_error (errors : gmap string string) (field : Field) : bool :=
  match errors !! key field with
  | Some m => negb (String.eqb m "")
  | None => false
  end.

(** [handleChange(field)] on an input event carrying [value]. *)
Definition handleChange (field : Field) (value : string)
  (st : FormData * gmap string string) : FormData * gmap string string :=
  (set field value (fst st),
   if has_error (snd st) field then <[key field := ""]> (snd st) else snd st).

(** [handleSubmit]: the errors displayed afterwards and the arguments of
    the [register] call, when one is made. *)
Definition handleSubmit (formData : FormData)
  : gmap string string * option (string * string * string) :=
  let (newErrors, ok) := validate formData in
  (newErrors,
   if ok then Some (userName formData, email formData, password formData) else None).

End SignUp.

(** The error [validate] records for each field of the sign-up form. *)
Definition sign_up_error (field : SignUp.Field) (formData : SignUp.FormData)
  : option string :=
  match field with
  | SignUp.UserName => SignUp.userName_error formData
  | SignUp.Email => SignUp.email_error formData
  | SignUp.Password => SignUp.password_error formData
  | SignUp.ConfirmPassword => SignUp.confirmPassword_error formData
  end.

(** A sign-up form whose password is six spaces. *)
Definition six_spaces_form : SignUp.FormData :=
  {| SignUp.userName := "ann"; SignUp.email := "ann@example.org";
     SignUp.password := "      "; SignUp.confirmPassword := "      " |}.

(** ** [App]: the meta tags effect *)

Module App.

(** A [<meta>] element: its [name], [property] and [content] attributes,
    each possibly absent. *)
Record Meta : Type := mkMeta {
  name : option string;
  property : option string;
  content : option string
}.

(** An entry of the [metaTags] array; [name] or [property] is undefined
    where the literal leaves it out. *)
Record MetaTag : Type := mkMetaTag {
  t_name : option string;
  t_property : option string;
  t_content : string
}.

#[global] Instance MetaTag_eq_dec : EqDecision MetaTag.
Proof. solve_decision. Defined.

Definition site_title : string := "NotesApp - Your Personal Note Taking Solution".

Definition site_description : string :=
  "A beautiful and intuitive note-taking application to organize your thoughts and ideas efficiently.".

Definition metaTags : list MetaTag :=
  [ mkMetaTag (Some "description") None site_description;
    mkMetaTag (Some "keywords") None
      "notes, note-taking, productivity, organization, thoughts, ideas, writing";
    mkMetaTag None (Some "og:title") site_title;
    mkMetaTag None (Some "og:description") site_description;
    mkMetaTag None (Some "og:type") "website";
    mkMetaTag (Some "twitter:card") None "summary_large_image";
    mkMetaTag (Some "twitter:title") None site_title;
    mkMetaTag (Some "twitter:description") None site_description ].

(** A value used as a condition: undefined and the empty string are
    falsy. *)
Definition truthy (o : option string) : bool :=
  match o with
  | Some s => negb (String.eqb s "")
  | None => false
  end.

(** A value interpolated into a template literal. *)
Definition interpolate (o : option string) : string :=
  match o with
  | Some s => s
  | None => "undefined"
  end.

(** The element [m] matches the selector built for the tag:
    [meta[name="..."]] when the tag has a name, [meta[property="..."]]
    otherwise. *)
Definition selects (t : MetaTag) (m : Meta) : bool :=
  if truthy (t_name t)
  then bool_decide (name m = Some (interpolate (t_name t)))
  else bool_decide (property m = Some (interpolate (t_property t))).

(** [meta.setAttribute('content', content)]. *)
Definition set_content (c : string) (m : Meta) : Meta :=
  {| name := name m; property := property m; content := Some c |}.

(** The element created for a tag no element matches, [content] set. *)
Definition create (t : MetaTag) : Meta :=
  {| name := if truthy (t_name t) then t_name t else None;
     property := if truthy (t_property t) then t_property t else None;
     content := Some (t_content t) |}.

(** Among elements in document order: the first one matching the
    selector of the tag gets the content; without a match, the element
    created for the tag comes last. *)
Fixpoint upsert_in (t : MetaTag) (metas : list Meta) : list Meta :=
  match metas with
  | [] => [create t]
  | m :: rest =>
      if selects t m then set_content (t_content t) m :: rest
      else m :: upsert_in t rest
  end.

(** Several tags in turn, among the same elements. *)
Definition forEach_in (tags : list MetaTag) (metas : list Meta) : list Meta :=
  fold_left (fun ms t => upsert_in t ms) tags metas.

(** Some element of [metas] matches the selector of the tag. *)
Definition found (t : MetaTag) (metas : list Meta) : bool := existsb (selects t) metas.

(** The [<meta>] elements of a document, in document order: those that
    are children of [head], then those elsewhere, which come after
    [head]. *)
Definition Metas : Type := (list Meta * list Meta)%type.

(** The selector's first match is a child of [head], or there is no
    match at all, so that the tag's element is, or will be, in [head]. *)
Definition in_head (metas : Metas) (t : MetaTag) : bool :=
  found t (fst metas) || negb (found t (snd metas)).

(** The body of [metaTags.forEach] for one tag: [querySelector] searches
    the whole document, and the first element matching the selector gets
    the content; without a match, a new element is appended to
    [head]. *)
Definition upsert (t : MetaTag) (metas : Metas) : Metas :=
  if in_head metas t then (upsert_in t (fst metas), snd metas)
  else (fst metas, upsert_in t (snd metas)).

(** [tags.forEach(...)]. *)
Definition forEach (tags : list MetaTag) (metas : Metas) : Metas :=
  fold_left (fun ms t => upsert t ms) tags metas.

(** The document as far as the effect touches it. *)
Record Document : Type := mkDocument {
  title : string;
  head : list Meta;
  body : list Meta
}.

(** The effect [App] runs when it mounts. *)
Definition effect (doc : Document) : Document :=
  {| title := site_title;
     head := fst (forEach metaTags (head doc, body doc));
     body := snd (forEach metaTags (head doc, body doc)) |}.

(** [document.querySelector] with the selector of the tag. *)
Definition querySelector (t : MetaTag) (doc : Document) : option Meta :=
  List.find (selects t) (head doc ++ body doc).

(** The tag has a name or a property to select and create by. *)
Definition keyed (t : MetaTag) : bool := truthy (t_name t) || truthy (t_property t).

(** What one tag makes of one element: its content, if it selects it. *)
Definition overwrite1 (m : Meta) (t : MetaTag) : Meta :=
  if selects t m then set_content (t_content t) m else m.

(** What the tags, in order, make of an element they do not move. *)
Definition overwrite (tags : list MetaTag) (m : Meta) : Meta :=
  fold_left overwrite1 tags m.

(** The [name] and [property] of an element. *)
Definition attributes (m : Meta) : option string * option string := (name m, property m).

(** No element of [ms] is selected by two of the tags. *)
Definition one_tag_each (tags : list MetaTag) (ms : list Meta) : Prop :=
  forall m t1 t2, In m ms -> In t1 tags -> In t2 tags ->
                  selects t1 m = true -> selects t2 m = true -> t1 = t2.

(** No element of [ms] is selected by two different tags of the array. *)
Definition singly_selected (ms : list Meta) : Prop := one_tag_each metaTags ms.

(** Tags with a key each, no two of which select the element created for
    one of them. *)
Definition distinct_keys (tags : list MetaTag) : Prop :=
  forallb keyed tags = true
  /\ forall t1 t2, In t1 tags -> In t2 tags ->
                   selects t2 (create t1) = true -> t2 = t1.

End App.

(** A document with a viewport tag and an outdated description in its
    head, and a stray meta element in its body. *)
Definition stale_document : App.Document :=
  {| App.title := "Vite + React + TS";
     App.head :=
       [ App.mkMeta (Some "viewport") None (Some "width=device-width, initial-scale=1.0");
         App.mkMeta (Some "description") None (Some "An older description") ];
     App.body := [ App.mkMeta None (Some "og:type") (Some "article") ] |}.


(** * Part II: properties *)

(** ** Substring search *)

Lemma startsWith_spec (s t : string) :
  JsString.startsWith s t = true <-> exists post, s = t +:+ post.
Proof.
  revert s; induction t as [|b t IH]; intros s; simpl.
  - split; [intros _; now exists s | intros _; now destruct s].
  - destruct s as [|a s]; simpl.
    + split; [discriminate | intros [post H]; discriminate].
    + rewrite andb_true_iff, Ascii.eqb_eq, IH. split.
      * intros [-> [post ->]]. now exists post.
      * intros [post H]. injection H as -> ->. split; [reflexivity | now exists post].
Qed.

Lemma includes_nil (t : string) :
  JsString.includes EmptyString t = JsString.startsWith EmptyString t.
Proof. unfold JsString.includes. apply orb_false_r. Qed.

Lemma includes_cons (a : ascii) (s t : string) :
  JsString.includes (String a s) t
  = JsString.startsWith (String a s) t || JsString.includes s t.
Proof. reflexivity. Qed.

Lemma includes_spec (s t : string) :
  JsString.includes s t = true <-> JsString.substring_of t s.
Proof.
  unfold JsString.substring_of. induction s as [|a s IH].
  - rewrite includes_nil, startsWith_spec. split.
    + intros [post H]. now exists EmptyString, post.
    + intros [pre [post H]]. destruct pre; simpl in H.
      * now exists post.
      * discriminate.
  - rewrite includes_cons, orb_true_iff, startsWith_spec, IH. split.
    + intros [[post H] | [pre [post H]]].
      * now exists EmptyString, post.
      * exists (String a pre), post. simpl. now rewrite H.
    + intros [pre [post H]]. destruct pre as [|c pre]; simpl in H.
      * left. now exists post.
      * right. injection H as _ H. now exists pre, post.
Qed.

Lemma includes_empty (s : string) : JsString.includes s EmptyString = true.
Proof. destruct s; reflexivity. Qed.

(** ** Sorting *)

Section SortFacts.
Context {A : Type} (cmp : A -> A -> Z).

Lemma insert_perm (x : A) (l : list A) :
  Permutation (JsArray.insert cmp x l) (x :: l).
Proof.
  induction l as [|y l IH]; simpl.
  - reflexivity.
  - destruct (cmp x y <=? 0).
    + reflexivity.
    + rewrite IH. apply perm_swap.
Qed.

Lemma sort_perm (l : list A) : Permutation (JsArray.sort cmp l) l.
Proof.
  induction l as [|x l IH]; simpl.
  - reflexivity.
  - rewrite insert_perm. now apply perm_skip.
Qed.

Hypothesis Hc : JsArray.Consistent cmp.

Lemma cmp_total (a b : A) : ~ cmp a b <= 0 -> cmp b a <= 0.
Proof.
  intros H. pose proof (JsArray.cmp_antisym cmp Hc a b) as Hs.
  destruct (Z.sgn_spec (cmp a b)) as [[? ?]|[[? ?]|[? ?]]];
    destruct (Z.sgn_spec (cmp b a)) as [[? ?]|[[? ?]|[? ?]]]; lia.
Qed.

Lemma cmp_eq_sym (a b : A) : cmp a b = 0 -> cmp b a = 0.
Proof.
  intros H. pose proof (JsArray.cmp_antisym cmp Hc a b) as Hs.
  rewrite H in Hs. simpl in Hs.
  destruct (Z.sgn_spec (cmp b a)) as [[? ?]|[[? ?]|[? ?]]]; lia.
Qed.

Lemma insert_HdRel (x a : A) (l : list A) :
  JsArray.cmp_le cmp a x -> HdRel (JsArray.cmp_le cmp) a l ->
  HdRel (JsArray.cmp_le cmp) a (JsArray.insert cmp x l).
Proof.
  intros Hax Hal. destruct l as [|y l]; simpl.
  - now constructor.
  - destruct (cmp x y <=? 0).
    + now constructor.
    + inversion Hal; subst. now constructor.
Qed.

Lemma insert_sorted (x : A) (l : list A) :
  Sorted (JsArray.cmp_le cmp) l -> Sorted (JsArray.cmp_le cmp) (JsArray.insert cmp x l).
Proof.
  induction 1 as [|y l Hs IH Hd]; simpl.
  - repeat constructor.
  - destruct (Z.leb_spec (cmp x y) 0) as [Hle|Hgt].
    + constructor; [now constructor | now constructor].
    + constructor; [exact IH |].
      apply insert_HdRel; [|exact Hd].
      apply cmp_total. lia.
Qed.

Lemma sort_sorted (l : list A) : Sorted (JsArray.cmp_le cmp) (JsArray.sort cmp l).
Proof.
  induction l as [|x l IH]; simpl.
  - constructor.
  - now apply insert_sorted.
Qed.

(** Every element of the sorted array may stand before all that follow
    it. *)
Lemma sort_strongly_sorted (l : list A) :
  StronglySorted (JsArray.cmp_le cmp) (JsArray.sort cmp l).
Proof.
  apply Sorted_StronglySorted.
  - intros a b c. apply (JsArray.cmp_trans cmp Hc).
  - apply sort_sorted.
Qed.

(** Stability of one insertion: the elements comparing equal to [z] come
    out of [insert x l] in the order they have in [x :: l]. *)
Lemma insert_stable (z x : A) (l : list A) :
  List.filter (JsArray.cmp_eqb cmp z) (JsArray.insert cmp x l)
  = List.filter (JsArray.cmp_eqb cmp z) (x :: l).
Proof.
  induction l as [|y l IH]; [reflexivity|].
  cbn [JsArray.insert]. destruct (Z.leb_spec (cmp x y) 0) as [Hle|Hgt]; [reflexivity|].
  cbn [List.filter] in *. rewrite IH.
  destruct (JsArray.cmp_eqb cmp z x) eqn:Ezx; [|reflexivity].
  destruct (JsArray.cmp_eqb cmp z y) eqn:Ezy; [|reflexivity].
  exfalso. unfold JsArray.cmp_eqb in *.
  apply Z.eqb_eq in Ezx, Ezy. apply cmp_eq_sym in Ezx.
  pose proof (JsArray.cmp_trans cmp Hc x z y). lia.
Qed.

(** Stability of [sort]: the elements comparing equal to [z] keep their
    relative order. *)
Lemma sort_stable (z : A) (l : list A) :
  List.filter (JsArray.cmp_eqb cmp z) (JsArray.sort cmp l)
  = List.filter (JsArray.cmp_eqb cmp z) l.
Proof.
  induction l as [|x l IH]; [reflexivity|].
  cbn [JsArray.sort]. rewrite insert_stable. cbn [List.filter].
  now rewrite IH.
Qed.

End SortFacts.

(** A comparison function that subtracts integer keys is consistent. *)
Lemma key_difference_consistent {A : Type} (key : A -> Z) :
  JsArray.Consistent (fun a b => key a - key b).
Proof.
  split.
  - intros a b. rewrite <- Z.sgn_opp. f_equal. lia.
  - intros a b c. lia.
Qed.

Lemma byNewest_consistent : JsArray.Consistent Home.byNewest.
Proof.
  split; unfold Home.byNewest.
  - intros a b. rewrite <- Z.sgn_opp. f_equal. lia.
  - intros a b c. lia.
Qed.

Lemma byOldest_consistent : JsArray.Consistent Home.byOldest.
Proof. exact (key_difference_consistent last_update). Qed.

(** ** The collation is a consistent comparison *)

Lemma lex_eq (k1 k2 : list Z) : Collation.lex k1 k2 = Eq -> k1 = k2.
Proof.
  revert k2; induction k1 as [|a k1 IH]; intros [|b k2]; simpl; try easy.
  destruct (Z.compare_spec a b) as [Hab|Hab|Hab]; try easy.
  intros Hk. subst. f_equal. now apply IH.
Qed.

Lemma lex_antisym (k1 k2 : list Z) :
  Collation.lex k2 k1 = CompOpp (Collation.lex k1 k2).
Proof.
  revert k2; induction k1 as [|a k1 IH]; intros [|b k2]; simpl; try easy.
  rewrite (Z.compare_antisym a b).
  destruct (a ?= b); simpl; auto.
Qed.

Lemma lex_lt_trans (k1 k2 k3 : list Z) :
  Collation.lex k1 k2 = Lt -> Collation.lex k2 k3 = Lt -> Collation.lex k1 k3 = Lt.
Proof.
  revert k2 k3; induction k1 as [|a k1 IH]; intros [|b k2] [|c k3]; simpl; try easy.
  destruct (Z.compare_spec a b), (Z.compare_spec b c), (Z.compare_spec a c);
    try easy; try lia.
  apply IH.
Qed.

Lemma lex_le_trans (k1 k2 k3 : list Z) :
  Collation.not_gt (Collation.lex k1 k2) -> Collation.not_gt (Collation.lex k2 k3) ->
  Collation.not_gt (Collation.lex k1 k3).
Proof.
  unfold Collation.not_gt. intros H12 H23.
  destruct (Collation.lex k1 k2) eqn:E12; [| |easy].
  - apply lex_eq in E12. now subst.
  - destruct (Collation.lex k2 k3) eqn:E23; [| |easy].
    + apply lex_eq in E23. subst. now rewrite E12.
    + now rewrite (lex_lt_trans _ _ _ E12 E23).
Qed.

Lemma collate_antisym (a b : string) :
  Collation.collate b a = CompOpp (Collation.collate a b).
Proof.
  unfold Collation.collate.
  rewrite (lex_antisym (Collation.primary a) (Collation.primary b)).
  destruct (Collation.lex (Collation.primary a) (Collation.primary b)); simpl; auto.
  apply lex_antisym.
Qed.

Lemma collate_le_trans (a b c : string) :
  Collation.not_gt (Collation.collate a b) -> Collation.not_gt (Collation.collate b c) ->
  Collation.not_gt (Collation.collate a c).
Proof.
  unfold Collation.collate. intros Hab Hbc.
  destruct (Collation.lex (Collation.primary a) (Collation.primary b)) eqn:Eab.
  - apply lex_eq in Eab. rewrite Eab.
    destruct (Collation.lex (Collation.primary b) (Collation.primary c)) eqn:Ebc;
      [| easy | easy].
    now apply lex_le_trans with (Collation.tertiary b).
  - destruct (Collation.lex (Collation.primary b) (Collation.primary c)) eqn:Ebc.
    + apply lex_eq in Ebc. rewrite <- Ebc, Eab. easy.
    + rewrite (lex_lt_trans _ _ _ Eab Ebc). easy.
    + now elim Hbc.
  - now elim Hab.
Qed.

Lemma localeCompare_le (a b : string) :
  Collation.localeCompare a b <= 0 <-> Collation.not_gt (Collation.collate a b).
Proof.
  unfold Collation.localeCompare, Collation.not_gt.
  destruct (Collation.collate a b); split; (easy || lia).
Qed.

Lemma localeCompare_consistent : JsArray.Consistent Collation.localeCompare.
Proof.
  split.
  - intros a b. unfold Collation.localeCompare. rewrite (collate_antisym a b).
    now destruct (Collation.collate a b).
  - intros a b c. rewrite !localeCompare_le. apply collate_le_trans.
Qed.

(** Comparing notes by title inherits the consistency of the string
    comparison. *)
Lemma byTitle_consistent (localeCompare : string -> string -> Z) :
  JsArray.Consistent localeCompare -> JsArray.Consistent (Home.byTitle localeCompare).
Proof.
  intros [Ha Ht]. split; unfold Home.byTitle.
  - intros a b. apply Ha.
  - intros a b c. apply Ht.
Qed.

(** ** Case-insensitive occurrence *)

Lemma all_chars_complete (a : ascii) : In a JsString.all_chars.
Proof.
  unfold JsString.all_chars. rewrite <- (ascii_nat_embedding a).
  apply List.in_map. apply List.in_seq.
  pose proof (nat_ascii_bounded a). lia.
Qed.

Lemma lower_char_same_letter (a b : ascii) :
  Ascii.eqb (JsString.lower_char a) (JsString.lower_char b) = JsString.same_letter a b.
Proof.
  assert (H : forallb (fun x => forallb (fun y =>
                Bool.eqb (Ascii.eqb (JsString.lower_char x) (JsString.lower_char y))
                         (JsString.same_letter x y)) JsString.all_chars)
              JsString.all_chars = true) by (vm_compute; reflexivity).
  rewrite forallb_forall in H. specialize (H a (all_chars_complete a)).
  rewrite forallb_forall in H. specialize (H b (all_chars_complete b)).
  now apply Bool.eqb_prop in H.
Qed.

Lemma same_text_spec (s t : string) :
  JsString.same_text s t = true <-> JsString.toLowerCase s = JsString.toLowerCase t.
Proof.
  revert t. induction s as [|a s IH]; intros [|b t]; cbn; try easy.
  rewrite andb_true_iff, <- lower_char_same_letter, Ascii.eqb_eq, IH. split.
  - intros [-> ->]. reflexivity.
  - intros H. injection H as H1 H2. now split.
Qed.




(** ** The list renderer *)

Lemma StronglySorted_weaken {A : Type} (R R' : A -> A -> Prop) (l : list A) :
  (forall a b, R a b -> R' a b) -> StronglySorted R l -> StronglySorted R' l.
Proof.
  intros HR. induction 1 as [|a l Hs IH Hall]; constructor.
  - exact IH.
  - revert Hall. apply List.Forall_impl. intros b. apply HR.
Qed.

Lemma matches_spec (searchTerm : string) (n : Note) :
  Home.matches searchTerm n = true <->
  JsString.contains_ci (note_title n) searchTerm
  \/ JsString.contains_ci (note_content n) searchTerm.
Proof.
  unfold Home.matches, JsString.contains_ci.
  now rewrite orb_true_iff, !includes_spec.
Qed.

Lemma matches_empty (n : Note) : Home.matches "" n = true.
Proof. unfold Home.matches. simpl. now rewrite includes_empty. Qed.

(** The derived list is the sorted filtered list. *)
Lemma filteredAndSortedNotes_eq (localeCompare : string -> string -> Z)
  (notes : list Note) (searchTerm : string) (sortBy : SortBy) :
  Home.filteredAndSortedNotes localeCompare notes searchTerm sortBy
  = JsArray.sort (Home.comparator localeCompare sortBy)
      (List.filter (Home.matches searchTerm) notes).
Proof. now destruct sortBy. Qed.

Lemma filteredAndSortedNotes_perm (localeCompare : string -> string -> Z)
  (notes : list Note) (searchTerm : string) (sortBy : SortBy) :
  Permutation (Home.filteredAndSortedNotes localeCompare notes searchTerm sortBy)
              (List.filter (Home.matches searchTerm) notes).
Proof. rewrite filteredAndSortedNotes_eq. apply sort_perm. Qed.



(** C6: sort mode [newest] orders the displayed notes descending by
    last-updated timestamp (every note is at least as recent as all notes
    after it) and sort mode [oldest] orders them ascending; for the cache
    of note 1 updated at [T2] and note 2 updated at [T1], with [T2] later
    than [T1], [newest] yields the order 1, 2 and [oldest] the order
    2, 1. *)
Theorem C6_newest_descending_oldest_ascending :
  forall (localeCompare : string -> string -> Z) (notes : list Note)
         (searchTerm owner : string) (c1 c2 T1 T2 : Z),
    T1 < T2 ->
    StronglySorted (fun a b => last_update a >= last_update b)
      (Home.filteredAndSortedNotes localeCompare notes searchTerm Newest)
    /\ StronglySorted (fun a b => last_update a <= last_update b)
      (Home.filteredAndSortedNotes localeCompare notes searchTerm Oldest)
    /\ Home.filteredAndSortedNotes localeCompare
         [groceries owner c1 T2; todo owner c2 T1] "" Newest
       = [groceries owner c1 T2; todo owner c2 T1]
    /\ Home.filteredAndSortedNotes localeCompare
         [groceries owner c1 T2; todo owner c2 T1] "" Oldest
       = [todo owner c2 T1; groceries owner c1 T2].
Proof.
  intros lc notes term owner c1 c2 T1 T2 HT. split; [|split; [|split]].
  - apply StronglySorted_weaken with (R := JsArray.cmp_le Home.byNewest).
    + unfold JsArray.cmp_le, Home.byNewest. intros a b. lia.
    + apply sort_strongly_sorted, byNewest_consistent.
  - apply StronglySorted_weaken with (R := JsArray.cmp_le Home.byOldest).
    + unfold JsArray.cmp_le, Home.byOldest. intros a b. lia.
    + apply sort_strongly_sorted, byOldest_consistent.
  - unfold Home.filteredAndSortedNotes. cbn [List.filter].
    rewrite !matches_empty. cbn [JsArray.sort JsArray.insert].
    unfold Home.byNewest, groceries, todo; cbn [last_update].
    destruct (Z.leb_spec (T1 - T2) 0); [reflexivity | lia].
  - unfold Home.filteredAndSortedNotes. cbn [List.filter].
    rewrite !matches_empty. cbn [JsArray.sort JsArray.insert].
    unfold Home.byOldest, groceries, todo; cbn [last_update].
    destruct (Z.leb_spec (T2 - T1) 0); [lia | reflexivity].
Qed.

(** The scenario of C6 with [T1 = 1] and [T2 = 2]. *)
Lemma C6_witness :
  (1 < 2)
  /\ Home.filteredAndSortedNotes Collation.localeCompare
       [groceries "u" 0 2; todo "u" 0 1] "" Newest
     = [groceries "u" 0 2; todo "u" 0 1]
  /\ Home.filteredAndSortedNotes Collation.localeCompare
       [groceries "u" 0 2; todo "u" 0 1] "" Oldest
     = [todo "u" 0 1; groceries "u" 0 2].
Proof.
  split; [lia|].
  apply (C6_newest_descending_oldest_ascending
           Collation.localeCompare [] "" "u" 0 0 1 2). lia.
Defined.








(** ** The derivation on arrays with identity *)

Lemma sort_ref_fresh (cmp : Note -> Note -> Z) (h : gmap JsArray.loc (list Note))
  (xs : list Note) :
  JsArray.sort_ref cmp (JsArray.alloc h xs).1 (JsArray.alloc h xs).2
  = Some (<[fresh (dom h) := JsArray.sort cmp xs]> h, fresh (dom h)).
Proof.
  unfold JsArray.sort_ref, JsArray.alloc. cbn [fst snd].
  rewrite lookup_insert_eq. now rewrite insert_insert_eq.
Qed.

Lemma filteredAndSortedNotes_ref_eq (localeCompare : string -> string -> Z)
  (h : gmap JsArray.loc (list Note)) (notes : JsArray.loc) (cached : list Note)
  (searchTerm : string) (sortBy : SortBy) :
  h !! notes = Some cached ->
  Home.filteredAndSortedNotes_ref localeCompare h notes searchTerm sortBy
  = Some (<[fresh (dom h) :=
              Home.filteredAndSortedNotes localeCompare cached searchTerm sortBy]> h,
          fresh (dom h)).
Proof.
  intros Hn. unfold Home.filteredAndSortedNotes_ref, JsArray.filter_ref.
  rewrite Hn.
  pose proof (fun cmp => sort_ref_fresh cmp h (List.filter (Home.matches searchTerm) cached))
    as Hs.
  destruct (JsArray.alloc h (List.filter (Home.matches searchTerm) cached)) as [h1 filtered].
  cbn [fst snd] in Hs. destruct sortBy; apply Hs.
Qed.

(** C9: the derivation (filter, then sort) is a pure function of the
    cached notes, the raw search term and the sort mode. Run on arrays
    with identity, it returns a newly allocated array whose content is
    that function's value; the store's notes array, and every other array
    that existed before, is unchanged, and the new array is the only
    difference between the heap before and after. *)
Theorem C9_derivation_never_mutates_cache :
  forall (localeCompare : string -> string -> Z)
         (h : gmap JsArray.loc (list Note)) (notes : JsArray.loc) (cached : list Note)
         (searchTerm : string) (sortBy : SortBy),
    h !! notes = Some cached ->
    exists (h' : gmap JsArray.loc (list Note)) (result : JsArray.loc),
      Home.filteredAndSortedNotes_ref localeCompare h notes searchTerm sortBy
      = Some (h', result)
      /\ h' !! notes = Some cached
      /\ (forall l : JsArray.loc, is_Some (h !! l) -> h' !! l = h !! l)
      /\ h !! result = None
      /\ h' !! result
         = Some (Home.filteredAndSortedNotes localeCompare cached searchTerm sortBy)
      /\ h' = <[result :=
                  Home.filteredAndSortedNotes localeCompare cached searchTerm sortBy]> h.
Proof.
  intros lc h notes cached term sortBy Hn.
  assert (Hfresh : h !! fresh (dom h) = None).
  { apply not_elem_of_dom. apply is_fresh. }
  assert (Hold : forall l : JsArray.loc, is_Some (h !! l) -> fresh (dom h) <> l).
  { intros l [xs Hl] E. rewrite <- E, Hfresh in Hl. discriminate. }
  eexists _, _. split; [apply (filteredAndSortedNotes_ref_eq lc h notes cached), Hn|].
  split; [|split; [|split; [|split]]].
  - rewrite lookup_insert_ne; [exact Hn|]. apply Hold. now exists cached.
  - intros l Hl. rewrite lookup_insert_ne; [reflexivity|]. now apply Hold.
  - exact Hfresh.
  - apply lookup_insert_eq.
  - reflexivity.
Qed.

(** The derivation run on a heap that holds the cache at location 7. *)
Lemma C9_witness :
  ({[ 7%positive := [groceries "u" 0 2; todo "u" 0 1] ]} : gmap JsArray.loc (list Note))
    !! 7%positive = Some [groceries "u" 0 2; todo "u" 0 1]
  /\ exists (h' : gmap JsArray.loc (list Note)) (result : JsArray.loc),
       Home.filteredAndSortedNotes_ref Collation.localeCompare
         {[ 7%positive := [groceries "u" 0 2; todo "u" 0 1] ]} 7%positive "o" Oldest
       = Some (h', result)
       /\ h' !! 7%positive = Some [groceries "u" 0 2; todo "u" 0 1].
Proof.
  split; [apply lookup_singleton_eq|].
  destruct (C9_derivation_never_mutates_cache Collation.localeCompare
              {[ 7%positive := [groceries "u" 0 2; todo "u" 0 1] ]} 7%positive
              [groceries "u" 0 2; todo "u" 0 1] "o" Oldest
              (lookup_singleton_eq _ _))
    as (h' & result & Hrun & Hsame & _).
  now exists h', result.
Defined.

(** ** The empty states *)

Lemma length_zero_iff {A : Type} (l : list A) : (length l =? 0)%nat = true <-> l = [].
Proof. destruct l; simpl; split; congruence. Qed.

Lemma shown_nil_of_cache_nil (localeCompare : string -> string -> Z)
  (searchTerm : string) (sortBy : SortBy) :
  Home.filteredAndSortedNotes localeCompare [] searchTerm sortBy = [].
Proof. now destruct sortBy. Qed.

(** C8, as the page implements it: "create your first note" is shown
    exactly when the cache is empty and no load is under way (an empty
    cache under load shows the spinner instead); "no matches" is shown
    exactly when the cache is non-empty and the filtered result is empty.
    The two are never conflated: the first only appears over an empty
    cache, the second only over a non-empty one. *)
Theorem C8_empty_states_distinguished :
  forall (localeCompare : string -> string -> Z) (s : NotesStore.Store)
         (searchTerm : string) (sortBy : SortBy),
    (Home.render localeCompare s searchTerm sortBy = Home.CreateFirstNote
       <-> NotesStore.notes s = [] /\ NotesStore.loading s = false)
    /\ (Home.render localeCompare s searchTerm sortBy = Home.NoMatches
       <-> NotesStore.notes s <> []
           /\ Home.filteredAndSortedNotes localeCompare (NotesStore.notes s)
                searchTerm sortBy = [])
    /\ (Home.render localeCompare s searchTerm sortBy = Home.Spinner
       <-> NotesStore.notes s = [] /\ NotesStore.loading s = true).
Proof.
  intros lc s term sortBy. unfold Home.render.
  pose proof (shown_nil_of_cache_nil lc term sortBy) as Hnil.
  destruct (NotesStore.notes s) as [|n ns] eqn:En; cbn [length Nat.eqb].
  - rewrite Hnil. cbn [length Nat.eqb]. rewrite andb_true_r.
    destruct (NotesStore.loading s); repeat split; try easy; intros [? ?]; easy.
  - rewrite andb_false_r.
    destruct (Home.filteredAndSortedNotes lc (n :: ns) term sortBy) as [|m ms];
      cbn [length Nat.eqb]; repeat split; try easy; intros [? ?]; easy.
Qed.

(** C8 as stated fails while the first load is under way: the cache is
    empty, and the page shows the spinner, not the "create your first
    note" affordance. *)
Lemma C8_counterexample :
  NotesStore.notes first_load_store = []
  /\ Home.render Collation.localeCompare first_load_store "" Newest = Home.Spinner
  /\ Home.render Collation.localeCompare first_load_store "" Newest <> Home.CreateFirstNote.
Proof. repeat split. discriminate. Qed.

(** ** The loading effect and the cache merge *)

Lemma deps_changed_term (prev cur : Home.LoadDeps) :
  Home.d_debouncedSearchTerm prev <> Home.d_debouncedSearchTerm cur ->
  Home.deps_changed prev cur = true.
Proof.
  intros H. unfold Home.deps_changed.
  apply String.eqb_neq in H. rewrite H.
  now rewrite andb_false_r.
Qed.

Lemma deps_changed_per_page (prev cur : Home.LoadDeps) :
  Home.d_per_page prev <> Home.d_per_page cur ->
  Home.deps_changed prev cur = true.
Proof.
  intros H. unfold Home.deps_changed.
  apply Z.eqb_neq in H. rewrite H.
  now rewrite andb_false_r.
Qed.

Lemma merge_first_page (q : Request) (res : PageResult) (cached : list Note) :
  q_page q = 1 -> NotesStore.merge q res cached = r_notes res.
Proof. intros H. unfold NotesStore.merge. now rewrite H. Qed.

Lemma merge_later_page (q : Request) (res : PageResult) (cached : list Note) :
  q_page q <> 1 ->
  NotesStore.merge q res cached
  = firstn (Z.to_nat (r_total res)) (cached ++ r_notes res).
Proof.
  intros H. unfold NotesStore.merge. apply Z.eqb_neq in H. now rewrite H.
Qed.

(** C3, as the page implements it: with a user signed in, on mount and
    whenever the debounced search term or the page size changed since the
    previous render, the loading effect calls [loadPage] with page index
    1, the current page size and the debounced term; and every successful
    [loadPage] call with page index 1, this one included, replaces the
    cached collection with the returned notes. *)
Theorem C3_new_search_loads_and_replaces_first_page :
  forall (prev : option Home.LoadDeps) (cur : Home.LoadDeps) (u : JsArray.loc),
    Home.d_user cur = Some u ->
    (prev = None
     \/ exists p, prev = Some p
          /\ (Home.d_debouncedSearchTerm p <> Home.d_debouncedSearchTerm cur
              \/ Home.d_per_page p <> Home.d_per_page cur)) ->
    Home.after_render prev cur
    = Some {| q_page := 1; q_per_page := Home.d_per_page cur;
              q_search := Home.d_debouncedSearchTerm cur |}
    /\ (forall (q : Request) (res : PageResult) (s : NotesStore.Store),
          q_page q = 1 ->
          NotesStore.notes (NotesStore.loadPage_settle q (Success res) s) = r_notes res)
    /\ (forall (api : Request -> Response PageResult) (q : Request) (res : PageResult)
               (s : NotesStore.Store),
          Home.after_render prev cur = Some q -> api q = Success res ->
          NotesStore.notes (NotesStore.loadPage api q s) = r_notes res).
Proof.
  intros prev cur u Hu Htrigger.
  assert (Hcall : Home.after_render prev cur
                  = Some {| q_page := 1; q_per_page := Home.d_per_page cur;
                            q_search := Home.d_debouncedSearchTerm cur |}).
  { unfold Home.after_render, Home.load_effect.
    destruct Htrigger as [-> | [p [-> [Hterm | Hsize]]]].
    - now rewrite Hu.
    - rewrite (deps_changed_term p cur Hterm). now rewrite Hu.
    - rewrite (deps_changed_per_page p cur Hsize). now rewrite Hu. }
  split; [exact Hcall | split].
  - intros q res s Hq. cbn. now apply merge_first_page.
  - intros api q res s Hq Hres. rewrite Hcall in Hq. injection Hq as <-.
    unfold NotesStore.loadPage. rewrite Hres. reflexivity.
Qed.

(** A signed-in user whose debounced term changes to "milk". *)
Lemma C3_witness :
  Home.d_user signed_in_after = Some 1%positive
  /\ Home.after_render (Some signed_in_before) signed_in_after
     = Some {| q_page := 1; q_per_page := 10; q_search := "milk" |}.
Proof.
  split; [reflexivity|].
  apply (C3_new_search_loads_and_replaces_first_page
           (Some signed_in_before) signed_in_after 1%positive eq_refl).
  right. exists signed_in_before. split; [reflexivity|]. left. discriminate.
Defined.

(** C3 as stated fails when nobody is signed in: the debounced term
    changes, or the page mounts, and the effect makes no call. *)
Lemma C3_counterexample :
  Home.d_debouncedSearchTerm signed_out_before
    <> Home.d_debouncedSearchTerm signed_out_after
  /\ Home.after_render (Some signed_out_before) signed_out_after = None
  /\ Home.after_render None signed_out_after = None.
Proof. repeat split. discriminate. Qed.

(** C4: a successful [loadPage] call with page index above 1 appends the
    returned notes after the cached ones, both in their order, capped at
    the total: the cache afterwards is the cached notes followed by the
    returned ones, cut off after [total] entries; its length is the
    previous length plus the number of returned notes, or [total] if that
    is less; and when the sum stays within [total], nothing is cut off.
    [total] is the one the response reports, which the store takes
    over. *)
Theorem C4_later_page_appends :
  forall (q : Request) (res : PageResult) (s : NotesStore.Store),
    q_page q > 1 ->
    NotesStore.notes (NotesStore.loadPage_settle q (Success res) s)
    = firstn (Z.to_nat (r_total res)) (NotesStore.notes s ++ r_notes res)
    /\ (exists cut,
          NotesStore.notes s ++ r_notes res
          = NotesStore.notes (NotesStore.loadPage_settle q (Success res) s) ++ cut)
    /\ length (NotesStore.notes (NotesStore.loadPage_settle q (Success res) s))
       = Nat.min (length (NotesStore.notes s) + length (r_notes res))
                 (Z.to_nat (NotesStore.total (NotesStore.loadPage_settle q (Success res) s)))
    /\ NotesStore.total (NotesStore.loadPage_settle q (Success res) s) = r_total res
    /\ (Z.of_nat (length (NotesStore.notes s) + length (r_notes res)) <= r_total res ->
        NotesStore.notes (NotesStore.loadPage_settle q (Success res) s)
        = NotesStore.notes s ++ r_notes res).
Proof.
  intros q res s Hq. cbn [NotesStore.loadPage_settle NotesStore.notes NotesStore.total].
  rewrite merge_later_page by lia.
  split; [reflexivity | split; [|split; [|split; [reflexivity|]]]].
  - exists (skipn (Z.to_nat (r_total res)) (NotesStore.notes s ++ r_notes res)).
    symmetry. apply List.firstn_skipn.
  - rewrite List.length_firstn, List.length_app. lia.
  - intros Hle. apply List.firstn_all2. rewrite List.length_app. lia.
Qed.

(** "Load more" on the store holding the first of two pages. *)
Lemma C4_witness :
  q_page (Home.handleLoadMore one_of_two "") > 1
  /\ NotesStore.notes
       (NotesStore.loadPage_settle (Home.handleLoadMore one_of_two "")
          (Success second_page) one_of_two)
     = [titled "1" "alpha"; titled "2" "beta"].
Proof.
  split; [reflexivity|].
  destruct (C4_later_page_appends (Home.handleLoadMore one_of_two "") second_page
              one_of_two eq_refl) as (Hnotes & _).
  exact Hnotes.
Defined.

(** ** Deleting a note *)

Lemma remove_entry_split (id : string) (cached : list Note) :
  (exists n, In n cached /\ note_id n = id) ->
  exists pre n post,
    cached = pre ++ n :: post /\ note_id n = id
    /\ List.Forall (fun m => note_id m <> id) pre
    /\ NotesStore.remove_entry id cached = pre ++ post.
Proof.
  induction cached as [|m rest IH]; intros [n [Hin Hid]]; [destruct Hin|].
  cbn [NotesStore.remove_entry]. unfold Api.has_id at 1.
  destruct (String.eqb_spec (note_id m) id) as [Heq|Hne].
  - exists [], m, rest. repeat split; auto.
  - destruct Hin as [-> | Hin]; [contradiction|].
    destruct IH as (pre & n' & post & -> & Hid' & Hpre & Hrem); [now exists n|].
    exists (m :: pre), n', post. rewrite Hrem. repeat split; auto.
Qed.

Lemma delete_note_success (id : string) (db : list Note) :
  fst (Api.delete_note id db) = Success tt ->
  Api.delete_note id db
  = (Success tt, List.filter (fun n => negb (Api.has_id id n)) db).
Proof.
  unfold Api.delete_note. destruct (existsb (Api.has_id id) db); [reflexivity|discriminate].
Qed.

Lemma delete_note_again (id : string) (db : list Note) :
  Api.delete_note id (List.filter (fun n => negb (Api.has_id id n)) db)
  = (Failure Api.not_found, List.filter (fun n => negb (Api.has_id id n)) db).
Proof.
  unfold Api.delete_note.
  destruct (existsb (Api.has_id id) (List.filter (fun n => negb (Api.has_id id n)) db))
    eqn:E; [|reflexivity].
  apply List.existsb_exists in E. destruct E as [n [Hin Hn]].
  apply List.filter_In in Hin. destruct Hin as [_ Hneg].
  rewrite Hn in Hneg. discriminate.
Qed.

(** C10: when the cache holds a note with the given identifier and
    [deleteNote] of that identifier succeeds, exactly one cache entry, one
    with that identifier, is removed (the entries before and after it
    stay, in order) and the displayed count goes down by one; a second
    [deleteNote] of the same identifier fails with the not-found error
    and leaves cache and count as they are. [handleDeleteNote] is that
    [deleteNote] once the user confirmed, and does nothing otherwise. *)
Theorem C10_delete_removes_one_entry_then_not_found :
  forall (s : NotesStore.Store) (db : list Note) (id : string),
    (exists n, In n (NotesStore.notes s) /\ note_id n = id) ->
    fst (Api.delete_note id db) = Success tt ->
    let once := NotesStore.deleteNote id (s, db) in
    let twice := NotesStore.deleteNote id once in
    (exists pre n post,
        NotesStore.notes s = pre ++ n :: post /\ note_id n = id
        /\ NotesStore.notes (fst once) = pre ++ post)
    /\ S (length (NotesStore.notes (fst once))) = length (NotesStore.notes s)
    /\ NotesStore.total (fst once) = NotesStore.total s - 1
    /\ NotesStore.error (fst twice) = Some Api.not_found
    /\ NotesStore.notes (fst twice) = NotesStore.notes (fst once)
    /\ NotesStore.total (fst twice) = NotesStore.total (fst once)
    /\ snd twice = snd once
    /\ Home.handleDeleteNote true id (s, db) = once
    /\ Home.handleDeleteNote false id (s, db) = (s, db).
Proof.
  intros s db id Hcached Hok once twice.
  assert (Eonce : once = (NotesStore.deleteNote_settle id (Success tt) s,
                          List.filter (fun n => negb (Api.has_id id n)) db)).
  { unfold once, NotesStore.deleteNote. cbn [fst snd].
    now rewrite (delete_note_success id db Hok). }
  assert (Etwice : twice = (NotesStore.deleteNote_settle id (Failure Api.not_found) (fst once),
                            snd once)).
  { unfold twice, NotesStore.deleteNote. rewrite Eonce. cbn [fst snd].
    now rewrite delete_note_again. }
  rewrite Etwice. rewrite Eonce. cbn.
  destruct (remove_entry_split id (NotesStore.notes s) Hcached)
    as (pre & n & post & Hs & Hid & _ & Hrem).
  split; [|split; [|repeat split]].
  - now exists pre, n, post.
  - rewrite Hrem, Hs, !List.length_app. cbn. lia.
  - unfold NotesStore.deleteNote. cbn [fst snd].
    now rewrite (delete_note_success id db Hok).
Qed.

(** Deleting note 2 of the example cache, twice. *)
Lemma C10_witness :
  (exists n, In n (NotesStore.notes two_notes) /\ note_id n = "2")
  /\ fst (Api.delete_note "2" two_notes_db) = Success tt
  /\ S (length (NotesStore.notes (fst (NotesStore.deleteNote "2" (two_notes, two_notes_db)))))
     = length (NotesStore.notes two_notes)
  /\ NotesStore.error
       (fst (NotesStore.deleteNote "2" (NotesStore.deleteNote "2" (two_notes, two_notes_db))))
     = Some Api.not_found.
Proof.
  assert (Hin : exists n, In n (NotesStore.notes two_notes) /\ note_id n = "2").
  { exists (todo "u" 0 1). split; [right; left; reflexivity | reflexivity]. }
  split; [exact Hin | split; [reflexivity|]].
  pose proof (C10_delete_removes_one_entry_then_not_found
                two_notes two_notes_db "2" Hin eq_refl) as H.
  cbv zeta in H. destruct H as (_ & Hlen & _ & Herr & _).
  split; [exact Hlen | exact Herr].
Defined.

(** ** The debounce *)

Lemma elapse_searchTerm (t : Z) (st : Debounce.State) :
  Debounce.searchTerm (Debounce.elapse t st) = Debounce.searchTerm st.
Proof.
  unfold Debounce.elapse. destruct (Debounce.timer st) as [[due v]|]; [|reflexivity].
  now destruct (due <=? t).
Qed.

Lemma elapse_not_due (t due : Z) (v : string) (st : Debounce.State) :
  Debounce.timer st = Some (due, v) -> t < due -> Debounce.elapse t st = st.
Proof.
  intros Ht Hlt. unfold Debounce.elapse. rewrite Ht.
  destruct (Z.leb_spec due t); [lia | reflexivity].
Qed.

Lemma elapse_due (t due : Z) (v : string) (st : Debounce.State) :
  Debounce.timer st = Some (due, v) -> due <= t ->
  Debounce.elapse t st
  = {| Debounce.searchTerm := Debounce.searchTerm st;
       Debounce.debouncedSearchTerm := v;
       Debounce.timer := None;
       Debounce.updates := Debounce.updates st ++ [(due, v)] |}.
Proof.
  intros Ht Hle. unfold Debounce.elapse. rewrite Ht.
  destruct (Z.leb_spec due t); [reflexivity | lia].
Qed.

(** A keystroke that changes the text cancels the pending timer and arms
    a new one, a full window after the keystroke. *)
Lemma onChange_restarts (t : Z) (value : string) (st : Debounce.State) :
  value <> Debounce.searchTerm st ->
  Debounce.onChange t value st
  = {| Debounce.searchTerm := value;
       Debounce.debouncedSearchTerm := Debounce.debouncedSearchTerm (Debounce.elapse t st);
       Debounce.timer := Some (t + Debounce.window, value);
       Debounce.updates := Debounce.updates (Debounce.elapse t st) |}.
Proof.
  intros Hne. unfold Debounce.onChange. rewrite elapse_searchTerm.
  apply String.eqb_neq in Hne. now rewrite Hne.
Qed.

Lemma last_cons_default {A : Type} (a d : A) (l : list A) :
  List.last (a :: l) d = List.last l a.
Proof.
  revert a d. induction l as [|b l IH]; intros a d; [reflexivity|].
  change (List.last (a :: b :: l) d) with (List.last (b :: l) d).
  rewrite (IH b d). symmetry. apply IH.
Qed.

(** Typing on while the timer of the previous keystroke is pending: no
    update happens, and the timer ends up armed by the last keystroke. *)
Lemma type_rapid (keys : list (Z * string)) :
  forall (t : Z) (v : string) (st : Debounce.State),
    Debounce.timer st = Some (t + Debounce.window, v) ->
    Debounce.searchTerm st = v ->
    Debounce.rapid t keys ->
    Debounce.changing v keys ->
    Debounce.type keys st
    = {| Debounce.searchTerm := snd (List.last keys (t, v));
         Debounce.debouncedSearchTerm := Debounce.debouncedSearchTerm st;
         Debounce.timer :=
           Some (fst (List.last keys (t, v)) + Debounce.window, snd (List.last keys (t, v)));
         Debounce.updates := Debounce.updates st |}.
Proof.
  induction keys as [|[t' v'] keys IH]; intros t v st Htimer Hterm Hrapid Hchange.
  - cbn. destruct st; cbn in *. now subst.
  - destruct Hrapid as [Ht' Hrapid]. destruct Hchange as [Hv' Hchange].
    cbn [Debounce.type]. rewrite last_cons_default.
    rewrite onChange_restarts by congruence.
    rewrite (elapse_not_due t' _ v st Htimer) by lia.
    now rewrite (IH t' v') by easy.
Qed.

(** C2: for keystrokes less than 500 ms apart, each changing the text of
    the search box, the debounced term is updated exactly once, to the
    value of the raw term after the final keystroke, and only when 500 ms
    have passed since that keystroke. Every such keystroke cancels the
    pending timer and arms a new one; while typing goes on and until the
    quiet period has elapsed, no update happens; once it has, the log of
    updates has grown by the single entry for the final value, and no
    timer is left to fire again. *)
Theorem C2_debounce_updates_once_after_quiet_period :
  forall (st : Debounce.State) (t1 : Z) (v1 : string) (keys : list (Z * string)),
    Debounce.changing (Debounce.searchTerm st) ((t1, v1) :: keys) ->
    Debounce.rapid t1 keys ->
    let tn := fst (List.last keys (t1, v1)) in
    let vn := snd (List.last keys (t1, v1)) in
    let typed := Debounce.type ((t1, v1) :: keys) st in
    Debounce.searchTerm typed = vn
    /\ Debounce.timer typed = Some (tn + 500, vn)
    /\ Debounce.updates typed = Debounce.updates (Debounce.elapse t1 st)
    /\ (forall T, T < tn + 500 ->
          Debounce.updates (Debounce.elapse T typed)
          = Debounce.updates (Debounce.elapse t1 st)
          /\ Debounce.debouncedSearchTerm (Debounce.elapse T typed)
             = Debounce.debouncedSearchTerm (Debounce.elapse t1 st))
    /\ (forall T, tn + 500 <= T ->
          Debounce.updates (Debounce.elapse T typed)
          = Debounce.updates (Debounce.elapse t1 st) ++ [(tn + 500, vn)]
          /\ Debounce.debouncedSearchTerm (Debounce.elapse T typed) = vn
          /\ Debounce.timer (Debounce.elapse T typed) = None
          /\ forall T', Debounce.elapse T' (Debounce.elapse T typed)
                        = Debounce.elapse T typed).
Proof.
  intros st t1 v1 keys [Hv1 Hchange] Hrapid tn vn typed.
  assert (Etyped : typed
    = {| Debounce.searchTerm := vn;
         Debounce.debouncedSearchTerm :=
           Debounce.debouncedSearchTerm (Debounce.elapse t1 st);
         Debounce.timer := Some (tn + Debounce.window, vn);
         Debounce.updates := Debounce.updates (Debounce.elapse t1 st) |}).
  { unfold typed. cbn [Debounce.type]. rewrite (onChange_restarts t1 v1 st Hv1).
    now rewrite (type_rapid keys t1 v1) by easy. }
  change Debounce.window with 500 in Etyped.
  clearbody typed. subst typed.
  split; [reflexivity | split; [reflexivity | split; [reflexivity|]]].
  split.
  - intros T HT. rewrite (elapse_not_due T (tn + 500) vn) by easy.
    split; reflexivity.
  - intros T HT. rewrite (elapse_due T (tn + 500) vn) by easy.
    cbn. repeat split.
Qed.

(** Typing "gym" right after the page mounted: nothing is updated up to
    1199 ms, and the one update to "gym" is there at 1200 ms. *)
Lemma C2_witness :
  Debounce.changing (Debounce.searchTerm (Debounce.mount 0)) typing_gym
  /\ Debounce.rapid 100 [(300, "gy"); (700, "gym")]
  /\ Debounce.updates (Debounce.elapse 1199 (Debounce.type typing_gym (Debounce.mount 0)))
     = Debounce.updates (Debounce.elapse 100 (Debounce.mount 0))
  /\ Debounce.updates (Debounce.elapse 1200 (Debounce.type typing_gym (Debounce.mount 0)))
     = Debounce.updates (Debounce.elapse 100 (Debounce.mount 0)) ++ [(1200, "gym")].
Proof.
  assert (Hc : Debounce.changing (Debounce.searchTerm (Debounce.mount 0)) typing_gym).
  { cbn. repeat split; discriminate. }
  assert (Hr : Debounce.rapid 100 [(300, "gy"); (700, "gym")]).
  { cbn. unfold Debounce.window. repeat split; lia. }
  split; [exact Hc | split; [exact Hr|]].
  pose proof (C2_debounce_updates_once_after_quiet_period
                (Debounce.mount 0) 100 "g" [(300, "gy"); (700, "gym")] Hc Hr) as H.
  cbv zeta in H. destruct H as (_ & _ & _ & Hbefore & Hafter).
  split.
  - apply (Hbefore 1199). cbn. lia.
  - apply (Hafter 1200). cbn. lia.
Defined.

(** * Part III: further properties of the page *)

(** ** More on the list renderer *)

Lemma lower_char_idem (c : ascii) :
  JsString.lower_char (JsString.lower_char c) = JsString.lower_char c.
Proof. destruct c as [[] [] [] [] [] [] [] []]; reflexivity. Qed.

Lemma toLowerCase_idem (s : string) :
  JsString.toLowerCase (JsString.toLowerCase s) = JsString.toLowerCase s.
Proof.
  induction s as [|c s IH]; [reflexivity|].
  cbn [JsString.toLowerCase]. now rewrite lower_char_idem, IH.
Qed.

Lemma toLowerCase_app (a b : string) :
  JsString.toLowerCase (a +:+ b) = JsString.toLowerCase a +:+ JsString.toLowerCase b.
Proof.
  induction a as [|c a IH]; [reflexivity|].
  change (String (JsString.lower_char c) (JsString.toLowerCase (a +:+ b))
          = String (JsString.lower_char c)
              (JsString.toLowerCase a +:+ JsString.toLowerCase b)).
  now rewrite IH.
Qed.

Lemma string_app_assoc (a b c : string) : (a +:+ b) +:+ c = a +:+ (b +:+ c).
Proof.
  induction a as [|x a IH]; [reflexivity|].
  change (String x ((a +:+ b) +:+ c) = String x (a +:+ (b +:+ c))).
  now rewrite IH.
Qed.

Lemma substring_of_trans (a b c : string) :
  JsString.substring_of a b -> JsString.substring_of b c -> JsString.substring_of a c.
Proof.
  intros (p1 & q1 & ->) (p2 & q2 & ->).
  exists (p2 +:+ p1), (q1 +:+ q2).
  now rewrite !string_app_assoc.
Qed.

Lemma matches_narrow (t1 t2 : string) (n : Note) :
  JsString.contains_ci t2 t1 ->
  Home.matches t2 n = true -> Home.matches t1 n = true.
Proof.
  unfold JsString.contains_ci. intros H12. rewrite !matches_spec.
  unfold JsString.contains_ci.
  intros [H | H]; [left | right]; eapply substring_of_trans; eauto.
Qed.

Lemma filter_length_mono {A : Type} (p q : A -> bool) (l : list A) :
  (forall x, p x = true -> q x = true) ->
  (length (List.filter p l) <= length (List.filter q l))%nat.
Proof.
  intros Hpq. induction l as [|x l IH]; [reflexivity|].
  cbn [List.filter]. destruct (p x) eqn:Ep.
  - rewrite (Hpq x Ep). cbn. lia.
  - destruct (q x); cbn; lia.
Qed.

Lemma filter_all {A : Type} (p : A -> bool) (l : list A) :
  (forall x, In x l -> p x = true) -> List.filter p l = l.
Proof.
  induction l as [|x l IH]; intros H; [reflexivity|].
  cbn [List.filter]. rewrite (H x (or_introl eq_refl)).
  f_equal. apply IH. intros y Hy. apply H. now right.
Qed.

Lemma sort_of_sorted {A : Type} (cmp : A -> A -> Z) (l : list A) :
  Sorted (JsArray.cmp_le cmp) l -> JsArray.sort cmp l = l.
Proof.
  induction 1 as [|x l Hs IH Hd]; [reflexivity|].
  cbn [JsArray.sort]. rewrite IH.
  destruct Hd as [|y l Hxy]; [reflexivity|].
  cbn [JsArray.insert]. unfold JsArray.cmp_le in Hxy.
  destruct (Z.leb_spec (cmp x y) 0); [reflexivity|lia].
Qed.

Lemma comparator_consistent (localeCompare : string -> string -> Z) (sortBy : SortBy) :
  JsArray.Consistent localeCompare ->
  JsArray.Consistent (Home.comparator localeCompare sortBy).
Proof.
  intros Hc. destruct sortBy; cbn.
  - apply byNewest_consistent.
  - apply byOldest_consistent.
  - now apply byTitle_consistent.
Qed.

(** With an empty search term nothing is filtered out: the page displays
    every cached note, each once. *)
Theorem empty_term_displays_whole_cache :
  forall (localeCompare : string -> string -> Z) (notes : list Note) (sortBy : SortBy),
    Permutation (Home.filteredAndSortedNotes localeCompare notes "" sortBy) notes
    /\ length (Home.filteredAndSortedNotes localeCompare notes "" sortBy) = length notes.
Proof.
  intros lc notes sortBy.
  assert (Hp : Permutation (Home.filteredAndSortedNotes lc notes "" sortBy) notes).
  { rewrite filteredAndSortedNotes_perm.
    rewrite filter_all; [reflexivity|]. intros n _. apply matches_empty. }
  split; [exact Hp | now apply Permutation_length].
Qed.

(** Typing on narrows the list: when the new term contains the old one
    (letter case disregarded), every note displayed for the new term was
    displayed for the old one, and the list does not get longer. *)
Theorem longer_term_narrows_display :
  forall (localeCompare : string -> string -> Z) (notes : list Note)
         (old new : string) (sortBy : SortBy),
    JsString.contains_ci new old ->
    (forall n, In n (Home.filteredAndSortedNotes localeCompare notes new sortBy) ->
               In n (Home.filteredAndSortedNotes localeCompare notes old sortBy))
    /\ (length (Home.filteredAndSortedNotes localeCompare notes new sortBy)
        <= length (Home.filteredAndSortedNotes localeCompare notes old sortBy))%nat.
Proof.
  intros lc notes old new sortBy Hsub. split.
  - intros n Hn.
    apply (Permutation_in n (filteredAndSortedNotes_perm lc notes new sortBy)) in Hn.
    apply (Permutation_in n (Permutation_sym (filteredAndSortedNotes_perm lc notes old sortBy))).
    apply List.filter_In in Hn. apply List.filter_In.
    destruct Hn as [Hin Hm]. split; [exact Hin|]. now apply (matches_narrow old new).
  - rewrite (Permutation_length (filteredAndSortedNotes_perm lc notes new sortBy)).
    rewrite (Permutation_length (filteredAndSortedNotes_perm lc notes old sortBy)).
    apply filter_length_mono. intros n. now apply matches_narrow.
Qed.

(** "Gro" typed on to "groc" over the example cache. *)
Lemma longer_term_narrows_display_witness :
  JsString.contains_ci "groc" "Gro"
  /\ (length (Home.filteredAndSortedNotes Collation.localeCompare
                [groceries "u" 0 2; todo "u" 0 1] "groc" Newest)
      <= length (Home.filteredAndSortedNotes Collation.localeCompare
                   [groceries "u" 0 2; todo "u" 0 1] "Gro" Newest))%nat.
Proof.
  assert (H : JsString.contains_ci "groc" "Gro").
  { exists "", "c". reflexivity. }
  split; [exact H|].
  apply (longer_term_narrows_display Collation.localeCompare
           [groceries "u" 0 2; todo "u" 0 1] "Gro" "groc" Newest H).
Defined.

(** The search does not depend on the case in which the term is typed:
    two terms that read the same when the case of letters is disregarded
    display the same list. *)
Theorem search_term_case_is_irrelevant :
  forall (localeCompare : string -> string -> Z) (notes : list Note)
         (term1 term2 : string) (sortBy : SortBy),
    JsString.same_text term1 term2 = true ->
    Home.filteredAndSortedNotes localeCompare notes term1 sortBy
    = Home.filteredAndSortedNotes localeCompare notes term2 sortBy.
Proof.
  intros lc notes t1 t2 sortBy Hsame. apply same_text_spec in Hsame.
  rewrite !filteredAndSortedNotes_eq. f_equal.
  apply List.filter_ext. intros n. unfold Home.matches. now rewrite Hsame.
Qed.

(** "Gy" and "gY" over the example cache. *)
Lemma search_term_case_is_irrelevant_witness :
  JsString.same_text "Gy" "gY" = true
  /\ Home.filteredAndSortedNotes Collation.localeCompare
       [groceries "u" 0 2; todo "u" 0 1] "Gy" Newest
     = Home.filteredAndSortedNotes Collation.localeCompare
         [groceries "u" 0 2; todo "u" 0 1] "gY" Newest.
Proof.
  split; [reflexivity|].
  apply (search_term_case_is_irrelevant Collation.localeCompare
           [groceries "u" 0 2; todo "u" 0 1] "Gy" "gY" Newest).
  reflexivity.
Defined.

(** Deriving the list again from what is displayed changes nothing: the
    displayed notes all pass the filter and are already in order. *)
Theorem derivation_is_idempotent :
  forall (localeCompare : string -> string -> Z) (notes : list Note)
         (searchTerm : string) (sortBy : SortBy),
    JsArray.Consistent localeCompare ->
    Home.filteredAndSortedNotes localeCompare
      (Home.filteredAndSortedNotes localeCompare notes searchTerm sortBy) searchTerm sortBy
    = Home.filteredAndSortedNotes localeCompare notes searchTerm sortBy.
Proof.
  intros lc notes term sortBy Hc.
  rewrite (filteredAndSortedNotes_eq lc
             (Home.filteredAndSortedNotes lc notes term sortBy)).
  rewrite filter_all.
  - rewrite filteredAndSortedNotes_eq. apply sort_of_sorted.
    apply sort_sorted. now apply comparator_consistent.
  - intros n Hn.
    apply (Permutation_in n (filteredAndSortedNotes_perm lc notes term sortBy)) in Hn.
    now apply List.filter_In in Hn.
Qed.

Lemma derivation_is_idempotent_witness :
  JsArray.Consistent Collation.localeCompare
  /\ Home.filteredAndSortedNotes Collation.localeCompare
       (Home.filteredAndSortedNotes Collation.localeCompare
          [titled "1" "pear"; titled "2" "Fig"; titled "3" "pear"] "p" Title) "p" Title
     = Home.filteredAndSortedNotes Collation.localeCompare
         [titled "1" "pear"; titled "2" "Fig"; titled "3" "pear"] "p" Title.
Proof.
  split; [exact localeCompare_consistent|].
  apply (derivation_is_idempotent Collation.localeCompare
           [titled "1" "pear"; titled "2" "Fig"; titled "3" "pear"] "p" Title
           localeCompare_consistent).
Defined.

(** Two arrangements of the same elements that are both in order are the
    same list, when no two distinct elements compare equal. *)
Lemma sorted_arrangement_unique {A : Type} (R : A -> A -> Prop) (l1 : list A) :
  forall l2 : list A,
    (forall a b, In a l1 -> In b l1 -> R a b -> R b a -> a = b) ->
    StronglySorted R l1 -> StronglySorted R l2 -> Permutation l1 l2 -> l1 = l2.
Proof.
  induction l1 as [|a l1 IH]; intros l2 Hanti H1 H2 Hp.
  - apply Permutation_nil in Hp. now subst.
  - destruct l2 as [|b l2]; [apply Permutation_sym, Permutation_nil in Hp; discriminate|].
    apply StronglySorted_inv in H1. destruct H1 as [H1 Ha].
    apply StronglySorted_inv in H2. destruct H2 as [H2 Hb].
    assert (Hab : a = b).
    { assert (Hin_a : In a (b :: l2)) by (apply (Permutation_in a Hp); now left).
      assert (Hin_b : In b (a :: l1))
        by (apply (Permutation_in b (Permutation_sym Hp)); now left).
      destruct Hin_a as [E | Hin_a]; [now symmetry|].
      destruct Hin_b as [E | Hin_b]; [exact E|].
      rewrite List.Forall_forall in Ha, Hb.
      apply Hanti; [now left | now right | now apply Ha | now apply Hb]. }
    subst b. f_equal. apply IH; auto.
    + intros x y Hx Hy. apply Hanti; now right.
    + now apply Permutation_cons_inv in Hp.
Qed.

Lemma last_update_inj (notes : list Note) (a b : Note) :
  List.NoDup (map last_update notes) -> In a notes -> In b notes ->
  last_update a = last_update b -> a = b.
Proof.
  induction notes as [|n notes IH]; intros Hnd Ha Hb Hab; [destruct Ha|].
  cbn in Hnd. apply List.NoDup_cons_iff in Hnd. destruct Hnd as [Hn Hnd].
  destruct Ha as [-> | Ha], Hb as [-> | Hb]; auto.
  - exfalso. apply Hn. rewrite Hab. now apply List.in_map.
  - exfalso. apply Hn. rewrite <- Hab. now apply List.in_map.
Qed.

Lemma shown_in_cache (localeCompare : string -> string -> Z) (notes : list Note)
  (searchTerm : string) (sortBy : SortBy) (n : Note) :
  In n (Home.filteredAndSortedNotes localeCompare notes searchTerm sortBy) -> In n notes.
Proof.
  intros Hn.
  apply (Permutation_in n (filteredAndSortedNotes_perm localeCompare notes searchTerm sortBy))
    in Hn.
  now apply List.filter_In in Hn.
Qed.

Lemma filter_perm {A : Type} (p : A -> bool) (l1 l2 : list A) :
  Permutation l1 l2 -> Permutation (List.filter p l1) (List.filter p l2).
Proof.
  induction 1 as [| x l1 l2 _ IH | x y l | l1 l2 l3 _ IH1 _ IH2]; cbn [List.filter].
  - reflexivity.
  - destruct (p x); [now apply perm_skip | exact IH].
  - destruct (p x), (p y); try reflexivity. apply perm_swap.
  - now transitivity (List.filter p l2).
Qed.

Lemma StronglySorted_snoc {A : Type} (R : A -> A -> Prop) (l : list A) (a : A) :
  StronglySorted R l -> List.Forall (fun x => R x a) l -> StronglySorted R (l ++ [a]).
Proof.
  induction 1 as [|b l Hs IH Hb]; intros Hall; cbn.
  - repeat constructor.
  - apply List.Forall_cons_iff in Hall. destruct Hall as [Hba Hall].
    constructor; [now apply IH|].
    apply List.Forall_app. split; [exact Hb | now constructor].
Qed.

Lemma StronglySorted_rev {A : Type} (R : A -> A -> Prop) (l : list A) :
  StronglySorted R l -> StronglySorted (fun a b => R b a) (rev l).
Proof.
  induction 1 as [|a l Hs IH Ha]; [constructor|].
  cbn [rev]. apply StronglySorted_snoc; [exact IH|].
  now apply List.Forall_rev.
Qed.

(** When no two cached notes carry the same last-updated timestamp, the
    order of display by date does not depend on the order of the cache:
    two caches holding the same notes display the same list, in mode
    [newest] and in mode [oldest]. *)
Theorem date_order_independent_of_cache_order :
  forall (localeCompare : string -> string -> Z) (notes1 notes2 : list Note)
         (searchTerm : string),
    Permutation notes1 notes2 ->
    List.NoDup (map last_update notes1) ->
    Home.filteredAndSortedNotes localeCompare notes1 searchTerm Newest
    = Home.filteredAndSortedNotes localeCompare notes2 searchTerm Newest
    /\ Home.filteredAndSortedNotes localeCompare notes1 searchTerm Oldest
       = Home.filteredAndSortedNotes localeCompare notes2 searchTerm Oldest.
Proof.
  intros lc notes1 notes2 term Hp Hnd.
  assert (Hperm : forall sortBy,
             Permutation (Home.filteredAndSortedNotes lc notes1 term sortBy)
                         (Home.filteredAndSortedNotes lc notes2 term sortBy)).
  { intros sortBy. rewrite !filteredAndSortedNotes_perm. now apply filter_perm. }
  split.
  - apply (sorted_arrangement_unique (JsArray.cmp_le Home.byNewest)).
    + intros a b Ha Hb Hab Hba. apply (last_update_inj notes1); auto.
      * now apply shown_in_cache in Ha.
      * now apply shown_in_cache in Hb.
      * unfold JsArray.cmp_le, Home.byNewest in *. lia.
    + apply sort_strongly_sorted, byNewest_consistent.
    + apply sort_strongly_sorted, byNewest_consistent.
    + apply Hperm.
  - apply (sorted_arrangement_unique (JsArray.cmp_le Home.byOldest)).
    + intros a b Ha Hb Hab Hba. apply (last_update_inj notes1); auto.
      * now apply shown_in_cache in Ha.
      * now apply shown_in_cache in Hb.
      * unfold JsArray.cmp_le, Home.byOldest in *. lia.
    + apply sort_strongly_sorted, byOldest_consistent.
    + apply sort_strongly_sorted, byOldest_consistent.
    + apply Hperm.
Qed.

(** The example cache and the same cache with its notes swapped. *)
Lemma date_order_independent_of_cache_order_witness :
  Permutation [groceries "u" 0 2; todo "u" 0 1] [todo "u" 0 1; groceries "u" 0 2]
  /\ List.NoDup (map last_update [groceries "u" 0 2; todo "u" 0 1])
  /\ Home.filteredAndSortedNotes Collation.localeCompare
       [groceries "u" 0 2; todo "u" 0 1] "" Newest
     = Home.filteredAndSortedNotes Collation.localeCompare
         [todo "u" 0 1; groceries "u" 0 2] "" Newest.
Proof.
  assert (Hp : Permutation [groceries "u" 0 2; todo "u" 0 1]
                           [todo "u" 0 1; groceries "u" 0 2]) by apply perm_swap.
  assert (Hnd : List.NoDup (map last_update [groceries "u" 0 2; todo "u" 0 1])).
  { cbn. repeat constructor; cbn; intuition discriminate. }
  split; [exact Hp | split; [exact Hnd|]].
  apply (date_order_independent_of_cache_order Collation.localeCompare
           [groceries "u" 0 2; todo "u" 0 1] [todo "u" 0 1; groceries "u" 0 2] "" Hp Hnd).
Defined.

(** When no two cached notes carry the same last-updated timestamp, mode
    [oldest] displays the notes of mode [newest] in reverse. *)
Theorem oldest_is_newest_reversed :
  forall (localeCompare : string -> string -> Z) (notes : list Note) (searchTerm : string),
    List.NoDup (map last_update notes) ->
    Home.filteredAndSortedNotes localeCompare notes searchTerm Oldest
    = rev (Home.filteredAndSortedNotes localeCompare notes searchTerm Newest).
Proof.
  intros lc notes term Hnd.
  apply (sorted_arrangement_unique (JsArray.cmp_le Home.byOldest)).
  - intros a b Ha Hb Hab Hba. apply (last_update_inj notes); auto.
    + now apply shown_in_cache in Ha.
    + now apply shown_in_cache in Hb.
    + unfold JsArray.cmp_le, Home.byOldest in *. lia.
  - apply sort_strongly_sorted, byOldest_consistent.
  - apply (StronglySorted_rev (JsArray.cmp_le Home.byNewest)).
    apply sort_strongly_sorted, byNewest_consistent.
  - rewrite <- Permutation_rev. rewrite !filteredAndSortedNotes_perm. reflexivity.
Qed.

Lemma oldest_is_newest_reversed_witness :
  List.NoDup (map last_update [groceries "u" 0 2; todo "u" 0 1])
  /\ Home.filteredAndSortedNotes Collation.localeCompare
       [groceries "u" 0 2; todo "u" 0 1] "" Oldest
     = rev (Home.filteredAndSortedNotes Collation.localeCompare
              [groceries "u" 0 2; todo "u" 0 1] "" Newest).
Proof.
  assert (Hnd : List.NoDup (map last_update [groceries "u" 0 2; todo "u" 0 1])).
  { cbn. repeat constructor; cbn; intuition discriminate. }
  split; [exact Hnd|].
  apply (oldest_is_newest_reversed Collation.localeCompare
           [groceries "u" 0 2; todo "u" 0 1] "" Hnd).
Defined.

(** ** The page body *)

(** When the page displays the grid, its cards are the derived list, which
    is not empty; every card is a cached note that passes the filter, so
    there are no more cards than cached notes; and "Load more" is offered
    exactly when fewer notes are cached than the total. *)
Theorem grid_cards_and_load_more :
  forall (localeCompare : string -> string -> Z) (s : NotesStore.Store)
         (searchTerm : string) (sortBy : SortBy) (cards : list Note) (more : bool),
    Home.render localeCompare s searchTerm sortBy = Home.Grid cards more ->
    cards = Home.filteredAndSortedNotes localeCompare (NotesStore.notes s) searchTerm sortBy
    /\ cards <> []
    /\ (forall n, In n cards ->
          In n (NotesStore.notes s) /\ Home.matches searchTerm n = true)
    /\ (length cards <= length (NotesStore.notes s))%nat
    /\ (more = true <-> Z.of_nat (length (NotesStore.notes s)) < NotesStore.total s).
Proof.
  intros lc s term sortBy cards more. unfold Home.render.
  destruct (NotesStore.loading s && (length (NotesStore.notes s) =? 0)%nat); [discriminate|].
  destruct (Home.filteredAndSortedNotes lc (NotesStore.notes s) term sortBy)
    as [|m ms] eqn:E; cbn [length Nat.eqb].
  - destruct (length (NotesStore.notes s) =? 0)%nat; discriminate.
  - intros H. injection H as <- <-. rewrite <- E.
    split; [reflexivity | split; [rewrite E; discriminate | split; [|split]]].
    + intros n Hn.
      apply (Permutation_in n (filteredAndSortedNotes_perm lc _ term sortBy)) in Hn.
      now apply List.filter_In in Hn.
    + rewrite (Permutation_length (filteredAndSortedNotes_perm lc _ term sortBy)).
      apply List.filter_length_le.
    + apply Z.ltb_lt.
Qed.

(** The example cache as the first of two pages. *)
Lemma grid_cards_and_load_more_witness :
  Home.render Collation.localeCompare
    {| NotesStore.notes := [groceries "u" 0 2; todo "u" 0 1]; NotesStore.total := 5;
       NotesStore.page := 1; NotesStore.per_page := 2; NotesStore.loading := false;
       NotesStore.error := None |} "gy" Newest
  = Home.Grid [todo "u" 0 1] true
  /\ [todo "u" 0 1] <> [].
Proof.
  assert (H : Home.render Collation.localeCompare
    {| NotesStore.notes := [groceries "u" 0 2; todo "u" 0 1]; NotesStore.total := 5;
       NotesStore.page := 1; NotesStore.per_page := 2; NotesStore.loading := false;
       NotesStore.error := None |} "gy" Newest
    = Home.Grid [todo "u" 0 1] true) by reflexivity.
  split; [exact H|].
  apply (grid_cards_and_load_more _ _ _ _ _ _ H).
Defined.

(** ** The note form *)

Section FormFacts.
Context {NoteFormData : Type}.

Lemma form_run_app (st : NoteForm.State * nat) (xs ys : list (NoteForm.Action NoteFormData)) :
  NoteForm.run st (xs ++ ys)
  = (fst (NoteForm.run (fst (NoteForm.run st xs)) ys),
     snd (NoteForm.run st xs) ++ snd (NoteForm.run (fst (NoteForm.run st xs)) ys)).
Proof.
  revert st. induction xs as [|a xs IH]; intros st.
  - cbn. now destruct (NoteForm.run st ys).
  - cbn [NoteForm.run app]. destruct (NoteForm.step st a) as [st1 call].
    rewrite IH. destruct (NoteForm.run st1 xs) as [st2 calls]. cbn [fst snd].
    destruct (NoteForm.run st2 ys) as [st3 calls']. cbn [fst snd].
    now destruct call.
Qed.

Lemma form_run_consistent (actions : list (NoteForm.Action NoteFormData)) :
  forall st, NoteForm.consistent (fst st) ->
             NoteForm.consistent (fst (fst (NoteForm.run st actions))).
Proof.
  induction actions as [|a rest IH]; intros st Hst; [exact Hst|].
  cbn [NoteForm.run].
  destruct (NoteForm.step st a) as [st1 call] eqn:E.
  specialize (IH st1). destruct (NoteForm.run st1 rest) as [st2 calls]. cbn [fst] in *.
  apply IH. destruct st as [f w].
  destruct a; cbn in E; try (injection E as <- _; cbn; unfold NoteForm.consistent; cbn;
    congruence).
  - injection E as <- _. exact Hst.
  - destruct w; injection E as <- _; cbn; [exact Hst|].
    unfold NoteForm.consistent. cbn. congruence.
  - injection E as <- _. exact Hst.
Qed.

Lemma form_run_calls (actions : list (NoteForm.Action NoteFormData)) :
  forall st, length (snd (NoteForm.run st actions)) = NoteForm.submits actions.
Proof.
  induction actions as [|a rest IH]; intros st; [reflexivity|].
  cbn [NoteForm.run].
  destruct (NoteForm.step st a) as [st1 call] eqn:E.
  specialize (IH st1). destruct (NoteForm.run st1 rest) as [st2 calls]. cbn [snd] in *.
  destruct a; cbn in E; try (injection E as _ <-; cbn; now rewrite IH).
  destruct (snd st); injection E as _ <-; cbn; now rewrite IH.
Qed.

End FormFacts.

(** Whatever happened to the form before, clicks, submits and settling
    store calls in any order: the store is called once per submit and by
    nothing else; a closed form holds no note to edit; a submit right
    after "edit" calls [updateNote] with the identifier of that note, and
    again so when the form is submitted once more before the first call
    has settled; a submit right after "new note" calls [addNote], also
    when an edit was abandoned just before. The submit leaves the form
    open: it is closed and cleared when the call is fulfilled, and stays
    as it is when the call is rejected. *)
Theorem form_submit_calls_the_right_action :
  forall (NoteFormData : Type) (history : list (NoteForm.Action NoteFormData))
         (note other : Note) (data again : NoteFormData),
    length (snd (NoteForm.run (NoteForm.initial, 0%nat) history)) = NoteForm.submits history
    /\ NoteForm.consistent (fst (fst (NoteForm.run (NoteForm.initial, 0%nat) history)))
    /\ snd (NoteForm.run (NoteForm.initial, 0%nat)
              (history ++ [NoteForm.ClickEdit note; NoteForm.Submit data;
                           NoteForm.Submit again]))
       = snd (NoteForm.run (NoteForm.initial, 0%nat) history)
         ++ [NoteForm.UpdateNote (note_id note) data;
             NoteForm.UpdateNote (note_id note) again]
    /\ snd (NoteForm.run (NoteForm.initial, 0%nat)
              (history ++ [NoteForm.ClickNew; NoteForm.Submit data]))
       = snd (NoteForm.run (NoteForm.initial, 0%nat) history) ++ [NoteForm.AddNote data]
    /\ snd (NoteForm.run (NoteForm.initial, 0%nat)
              (history ++ [NoteForm.ClickEdit other; NoteForm.Close;
                           NoteForm.ClickNew; NoteForm.Submit data]))
       = snd (NoteForm.run (NoteForm.initial, 0%nat) history) ++ [NoteForm.AddNote data]
    /\ fst (fst (NoteForm.run (NoteForm.initial, 0%nat)
                   (history ++ [NoteForm.ClickEdit note; NoteForm.Submit data])))
       = NoteForm.handleEditNote note NoteForm.initial
    /\ fst (fst (NoteForm.run (NoteForm.initial, 0%nat)
                   (history ++ [NoteForm.ClickEdit note; NoteForm.Submit data;
                                NoteForm.Fulfilled])))
       = NoteForm.initial
    /\ fst (fst (NoteForm.run (NoteForm.initial, 0%nat)
                   (history ++ [NoteForm.ClickEdit note; NoteForm.Submit data;
                                NoteForm.Rejected])))
       = NoteForm.handleEditNote note NoteForm.initial.
Proof.
  intros Data history note other data again.
  split; [apply form_run_calls | split].
  - apply form_run_consistent. unfold NoteForm.consistent. reflexivity.
  - rewrite !form_run_app. cbn. repeat split.
Qed.

(** ** More on the debounce *)

Lemma mount_settled (t0 : Z) : Controller.settled_or_pending (Debounce.mount t0).
Proof. reflexivity. Qed.

Lemma elapse_settled (t : Z) (st : Debounce.State) :
  Controller.settled_or_pending st ->
  Controller.settled_or_pending (Debounce.elapse t st).
Proof.
  unfold Controller.settled_or_pending, Debounce.elapse.
  destruct (Debounce.timer st) as [[due v]|] eqn:E; [|now rewrite E].
  destruct (due <=? t); cbn; [easy | now rewrite E].
Qed.

Lemma onChange_settled (t : Z) (value : string) (st : Debounce.State) :
  Controller.settled_or_pending st ->
  Controller.settled_or_pending (Debounce.onChange t value st).
Proof.
  intros H. unfold Debounce.onChange.
  destruct (String.eqb value (Debounce.searchTerm (Debounce.elapse t st))).
  - now apply elapse_settled.
  - reflexivity.
Qed.

Lemma type_settled (keys : list (Z * string)) :
  forall st, Controller.settled_or_pending st ->
             Controller.settled_or_pending (Debounce.type keys st).
Proof.
  induction keys as [|[t v] keys IH]; intros st H; [exact H|].
  cbn [Debounce.type]. apply IH. now apply onChange_settled.
Qed.

Lemma elapse_pending_later (T : Z) (st : Debounce.State) (d : Z) (v : string) :
  Debounce.timer (Debounce.elapse T st) = Some (d, v) -> T < d.
Proof.
  unfold Debounce.elapse. destruct (Debounce.timer st) as [[due w]|] eqn:E.
  - destruct (Z.leb_spec due T); cbn; [discriminate|].
    rewrite E. intros Hd. injection Hd as <- _. lia.
  - rewrite E. discriminate.
Qed.

(** However the keystrokes are timed: at any time after them, either a
    timer is pending, due later, that will deliver the text now in the
    search box, or the debounced term is that text. The debounced term
    never settles on anything but the last text typed. *)
Theorem debounced_term_catches_up :
  forall (t0 : Z) (keys : list (Z * string)) (T : Z),
    let st := Debounce.elapse T (Debounce.type keys (Debounce.mount t0)) in
    (Debounce.timer st = None ->
       Debounce.debouncedSearchTerm st = Debounce.searchTerm st)
    /\ (forall d v, Debounce.timer st = Some (d, v) ->
          v = Debounce.searchTerm st /\ T < d)
    /\ Debounce.searchTerm st = Debounce.searchTerm (Debounce.type keys (Debounce.mount t0)).
Proof.
  intros t0 keys T st.
  assert (H : Controller.settled_or_pending st).
  { apply elapse_settled, type_settled, mount_settled. }
  unfold Controller.settled_or_pending in H.
  split; [|split].
  - intros E. now rewrite E in H.
  - intros d v E. split; [now rewrite E in H|].
    exact (elapse_pending_later T (Debounce.type keys (Debounce.mount t0)) d v E).
  - apply elapse_searchTerm.
Qed.

Lemma type_slow (keys : list (Z * string)) :
  forall (t : Z) (v : string) (st : Debounce.State) (T : Z),
    Debounce.timer st = Some (t + Debounce.window, v) ->
    Debounce.searchTerm st = v ->
    Controller.slow t keys ->
    Debounce.changing v keys ->
    fst (List.last keys (t, v)) + Debounce.window <= T ->
    Debounce.updates (Debounce.elapse T (Debounce.type keys st))
    = Debounce.updates st ++ map Controller.due ((t, v) :: keys)
    /\ Debounce.debouncedSearchTerm (Debounce.elapse T (Debounce.type keys st))
       = snd (List.last keys (t, v)).
Proof.
  induction keys as [|[t' v'] keys IH]; intros t v st T Htimer Hterm Hslow Hchange HT.
  - cbn in HT. cbn [Debounce.type]. rewrite (elapse_due T _ v st Htimer HT). now cbn.
  - destruct Hslow as [Ht' Hslow]. destruct Hchange as [Hv' Hchange].
    rewrite last_cons_default in HT |- *.
    cbn [Debounce.type]. rewrite onChange_restarts by congruence.
    rewrite (elapse_due t' _ v st Htimer Ht'). cbn [Debounce.updates Debounce.debouncedSearchTerm].
    match goal with |- context [Debounce.type keys ?s] => specialize (IH t' v' s T) end.
    destruct IH as [IHu IHd]; auto.
    rewrite IHu, IHd. cbn [Debounce.updates]. split; [|reflexivity].
    now rewrite <- List.app_assoc.
Qed.

(** Slow typing is not debounced away: when every keystroke changes the
    text and comes at least 500 ms after the previous one, each keystroke
    gets its own update of the debounced term, 500 ms after it, in the
    order typed. *)
Theorem slow_typing_updates_per_keystroke :
  forall (st : Debounce.State) (t1 : Z) (v1 : string) (keys : list (Z * string)) (T : Z),
    Debounce.changing (Debounce.searchTerm st) ((t1, v1) :: keys) ->
    Controller.slow t1 keys ->
    fst (List.last keys (t1, v1)) + 500 <= T ->
    Debounce.updates (Debounce.elapse T (Debounce.type ((t1, v1) :: keys) st))
    = Debounce.updates (Debounce.elapse t1 st)
      ++ map (fun key => (fst key + 500, snd key)) ((t1, v1) :: keys)
    /\ Debounce.debouncedSearchTerm
         (Debounce.elapse T (Debounce.type ((t1, v1) :: keys) st))
       = snd (List.last keys (t1, v1)).
Proof.
  intros st t1 v1 keys T [Hv1 Hchange] Hslow HT.
  cbn [Debounce.type]. rewrite (onChange_restarts t1 v1 st Hv1).
  change 500 with Debounce.window in HT.
  pose proof (type_slow keys t1 v1
                {| Debounce.searchTerm := v1;
                   Debounce.debouncedSearchTerm :=
                     Debounce.debouncedSearchTerm (Debounce.elapse t1 st);
                   Debounce.timer := Some (t1 + Debounce.window, v1);
                   Debounce.updates := Debounce.updates (Debounce.elapse t1 st) |}
                T eq_refl eq_refl Hslow Hchange HT) as H.
  exact H.
Qed.

(** Typing "gym" with a pause after each letter. *)
Lemma slow_typing_updates_per_keystroke_witness :
  Debounce.changing (Debounce.searchTerm (Debounce.mount 0))
    [(100, "g"); (700, "gy"); (1300, "gym")]
  /\ Controller.slow 100 [(700, "gy"); (1300, "gym")]
  /\ Debounce.updates
       (Debounce.elapse 1800
          (Debounce.type [(100, "g"); (700, "gy"); (1300, "gym")] (Debounce.mount 0)))
     = Debounce.updates (Debounce.elapse 100 (Debounce.mount 0))
       ++ [(600, "g"); (1200, "gy"); (1800, "gym")].
Proof.
  assert (Hc : Debounce.changing (Debounce.searchTerm (Debounce.mount 0))
                 [(100, "g"); (700, "gy"); (1300, "gym")]).
  { cbn. repeat split; discriminate. }
  assert (Hs : Controller.slow 100 [(700, "gy"); (1300, "gym")]).
  { cbn. unfold Debounce.window. repeat split; lia. }
  split; [exact Hc | split; [exact Hs|]].
  apply (slow_typing_updates_per_keystroke (Debounce.mount 0) 100 "g"
           [(700, "gy"); (1300, "gym")] 1800 Hc Hs).
  cbn. lia.
Defined.

Lemma typed_rapidly (st : Debounce.State) (t1 : Z) (v1 : string) (keys : list (Z * string)) :
  Debounce.changing (Debounce.searchTerm st) ((t1, v1) :: keys) ->
  Debounce.rapid t1 keys ->
  Debounce.type ((t1, v1) :: keys) st
  = {| Debounce.searchTerm := snd (List.last keys (t1, v1));
       Debounce.debouncedSearchTerm := Debounce.debouncedSearchTerm (Debounce.elapse t1 st);
       Debounce.timer :=
         Some (fst (List.last keys (t1, v1)) + Debounce.window, snd (List.last keys (t1, v1)));
       Debounce.updates := Debounce.updates (Debounce.elapse t1 st) |}.
Proof.
  intros [Hv1 Hchange] Hrapid.
  cbn [Debounce.type]. rewrite (onChange_restarts t1 v1 st Hv1).
  now rewrite (type_rapid keys t1 v1) by easy.
Qed.

Lemma deps_unchanged (d : Home.LoadDeps) : Home.deps_changed d d = false.
Proof.
  unfold Home.deps_changed.
  rewrite bool_decide_eq_true_2 by reflexivity.
  now rewrite String.eqb_refl, Z.eqb_refl.
Qed.

(** Debounce and loading effect together, for a burst of keystrokes less
    than 500 ms apart: no render during the burst or the quiet period
    that follows makes a [loadPage] call; once the quiet period is over,
    the effect calls [loadPage] for page 1 with the final term if a user
    is signed in and the final term differs from the term debounced
    before the burst, and makes no call if the user typed their way back
    to that term. *)
Theorem typing_burst_loads_at_most_once :
  forall (st : Debounce.State) (t1 : Z) (v1 : string) (keys : list (Z * string))
         (user : option JsArray.loc) (per_page T : Z),
    Debounce.changing (Debounce.searchTerm st) ((t1, v1) :: keys) ->
    Debounce.rapid t1 keys ->
    let tn := fst (List.last keys (t1, v1)) in
    let vn := snd (List.last keys (t1, v1)) in
    let before := Controller.deps user per_page (Debounce.elapse t1 st) in
    let after :=
      Controller.deps user per_page
        (Debounce.elapse T (Debounce.type ((t1, v1) :: keys) st)) in
    (T < tn + 500 -> Home.after_render (Some before) after = None)
    /\ (tn + 500 <= T ->
        vn = Debounce.debouncedSearchTerm (Debounce.elapse t1 st) ->
        Home.after_render (Some before) after = None)
    /\ (tn + 500 <= T ->
        vn <> Debounce.debouncedSearchTerm (Debounce.elapse t1 st) ->
        Home.after_render (Some before) after
        = match user with
          | Some _ => Some {| q_page := 1; q_per_page := per_page; q_search := vn |}
          | None => None
          end).
Proof.
  intros st t1 v1 keys user per_page T Hchange Hrapid tn vn before after.
  pose proof (typed_rapidly st t1 v1 keys Hchange Hrapid) as Etyped.
  change Debounce.window with 500 in Etyped. fold tn vn in Etyped.
  unfold after, before. rewrite Etyped. clear Etyped.
  split; [|split].
  - intros HT. rewrite (elapse_not_due T (tn + 500) vn) by easy.
    unfold Home.after_render, Controller.deps. cbn [Debounce.debouncedSearchTerm].
    now rewrite deps_unchanged.
  - intros HT Hsame. rewrite (elapse_due T (tn + 500) vn) by easy.
    unfold Home.after_render, Controller.deps. cbn [Debounce.debouncedSearchTerm].
    rewrite Hsame. now rewrite deps_unchanged.
  - intros HT Hdiff. rewrite (elapse_due T (tn + 500) vn) by easy.
    unfold Home.after_render, Controller.deps. cbn [Debounce.debouncedSearchTerm].
    rewrite deps_changed_term by (cbn; congruence).
    reflexivity.
Qed.

(** "gym" typed in a burst by a signed-in user right after the page
    mounted: one call, once the 500 ms after the last letter are over. *)
Lemma typing_burst_loads_at_most_once_witness :
  Debounce.changing (Debounce.searchTerm (Debounce.mount 0)) typing_gym
  /\ Debounce.rapid 100 [(300, "gy"); (700, "gym")]
  /\ Home.after_render
       (Some (Controller.deps (Some 1%positive) 10 (Debounce.elapse 100 (Debounce.mount 0))))
       (Controller.deps (Some 1%positive) 10
          (Debounce.elapse 1199 (Debounce.type typing_gym (Debounce.mount 0))))
     = None
  /\ Home.after_render
       (Some (Controller.deps (Some 1%positive) 10 (Debounce.elapse 100 (Debounce.mount 0))))
       (Controller.deps (Some 1%positive) 10
          (Debounce.elapse 1200 (Debounce.type typing_gym (Debounce.mount 0))))
     = Some {| q_page := 1; q_per_page := 10; q_search := "gym" |}.
Proof.
  assert (Hc : Debounce.changing (Debounce.searchTerm (Debounce.mount 0)) typing_gym).
  { cbn. repeat split; discriminate. }
  assert (Hr : Debounce.rapid 100 [(300, "gy"); (700, "gym")]).
  { cbn. unfold Debounce.window. repeat split; lia. }
  split; [exact Hc | split; [exact Hr | split]].
  - pose proof (typing_burst_loads_at_most_once (Debounce.mount 0) 100 "g"
                  [(300, "gy"); (700, "gym")] (Some 1%positive) 10 1199 Hc Hr) as H.
    cbv zeta in H. destruct H as (Hquiet & _ & _). apply Hquiet. cbn. lia.
  - pose proof (typing_burst_loads_at_most_once (Debounce.mount 0) 100 "g"
                  [(300, "gy"); (700, "gym")] (Some 1%positive) 10 1200 Hc Hr) as H.
    cbv zeta in H. destruct H as (_ & _ & Hload). apply Hload.
    + cbn. lia.
    + cbn. discriminate.
Defined.

(** ** White space and the e-mail pattern *)

Lemma trimEnd_nil (l : list ascii) :
  JsText.is_empty (JsText.trimEnd l) = forallb JsText.is_space l.
Proof.
  induction l as [|c l IH]; [reflexivity|].
  cbn [JsText.trimEnd forallb].
  destruct (JsText.trimEnd l) as [|r rs].
  - cbn in IH. rewrite <- IH. now destruct (JsText.is_space c).
  - cbn in IH. rewrite <- IH. now rewrite andb_false_r.
Qed.

Lemma trimStart_spaces (l : list ascii) :
  forallb JsText.is_space (JsText.trimStart l) = forallb JsText.is_space l.
Proof.
  induction l as [|c l IH]; [reflexivity|].
  cbn [JsText.trimStart]. destruct (JsText.is_space c) eqn:E.
  - rewrite IH. cbn. now rewrite E.
  - reflexivity.
Qed.

(** The trimmed string is empty exactly when the string is all white
    space. *)
Lemma trim_empty (s : string) :
  JsText.is_empty (JsText.trim s) = forallb JsText.is_space (list_ascii_of_string s).
Proof. unfold JsText.trim. now rewrite trimEnd_nil, trimStart_spaces. Qed.

Lemma plus_class_spec (p : ascii -> bool) (s : list ascii) :
  JsText.Matches (JsText.Plus (JsText.Class p)) s <-> s <> [] /\ forallb p s = true.
Proof.
  split.
  - intros H. remember (JsText.Plus (JsText.Class p)) as r eqn:Er.
    induction H as [ | | r s H _ | r s1 s2 H1 _ H2 IH2 | ]; try discriminate.
    + injection Er as ->. inversion H; subst. cbn. split; [discriminate|].
      now rewrite andb_true_r.
    + injection Er as ->. inversion H1; subst. cbn. split; [discriminate|].
      destruct (IH2 eq_refl) as [_ ->]. now rewrite andb_true_r.
  - intros [Hne Hall]. induction s as [|c s IH]; [contradiction|].
    cbn in Hall. apply andb_true_iff in Hall. destruct Hall as [Hc Hall].
    destruct s as [|d s].
    + apply JsText.MPlusOne. now constructor.
    + apply (JsText.MPlusMore _ [c] (d :: s)); [now constructor|].
      apply IH; [discriminate | exact Hall].
Qed.

Lemma emailPattern_spec (m : list ascii) :
  JsText.Matches JsText.emailPattern m <->
  exists a b c, m = a ++ "@"%char :: b ++ "."%char :: c
                /\ JsText.run_of_nonspace a /\ JsText.run_of_nonspace b /\ JsText.run_of_nonspace c.
Proof.
  unfold JsText.emailPattern, JsText.run_of_nonspace, JsText.all_nonspace. split.
  - intros H.
    inversion H as [ | | | | r1 r2 a m1 Ha H1]; subst.
    inversion H1 as [ | | | | r1 r2 x m2 Hx H2]; subst.
    inversion H2 as [ | | | | r1 r2 b m3 Hb H3]; subst.
    inversion H3 as [ | | | | r1 r2 y c Hy Hc]; subst.
    inversion Hx; subst. inversion Hy; subst.
    apply plus_class_spec in Ha, Hb, Hc.
    exists a, b, c. repeat split; try easy.
  - intros (a & b & c & -> & Ha & Hb & Hc).
    apply plus_class_spec in Ha, Hb, Hc.
    apply JsText.MSeq; [exact Ha|].
    apply (JsText.MSeq _ _ ["@"%char]); [constructor|].
    apply JsText.MSeq; [exact Hb|].
    apply (JsText.MSeq _ _ ["."%char]); [constructor | exact Hc].
Qed.

Lemma domain_spec (s : list ascii) :
  JsText.domain s = true <->
  exists b x rest, s = b ++ "."%char :: x :: rest
                   /\ JsText.run_of_nonspace b /\ JsText.nonspace x = true.
Proof.
  unfold JsText.run_of_nonspace, JsText.all_nonspace. split.
  - induction s as [|c s IH]; [discriminate|].
    cbn [JsText.domain]. rewrite andb_true_iff, orb_true_iff.
    intros [Hc [Hdot | Hdom]].
    + destruct s as [|d [|x rest]]; try discriminate.
      cbn in Hdot. apply andb_true_iff in Hdot. destruct Hdot as [Hd Hx].
      apply Ascii.eqb_eq in Hd. subst d.
      exists [c], x, rest. cbn. rewrite Hc. repeat split; easy.
    + destruct (IH Hdom) as (b & x & rest & -> & [Hne Hall] & Hx).
      exists (c :: b), x, rest. cbn. rewrite Hc, Hall. repeat split; easy.
  - intros (b & x & rest & -> & [Hne Hall] & Hx).
    induction b as [|c b IH]; [contradiction|].
    cbn in Hall. apply andb_true_iff in Hall. destruct Hall as [Hc Hall].
    cbn [app JsText.domain]. rewrite Hc. cbn [andb].
    destruct b as [|c' b].
    + cbn. now rewrite Hx.
    + rewrite IH; [apply orb_true_r | discriminate | exact Hall].
Qed.

Lemma at_sign_spec (s : list ascii) :
  forall prev : bool,
    JsText.at_sign prev s = true <->
    (prev = true /\ exists s', s = "@"%char :: s' /\ JsText.domain s' = true)
    \/ (exists pre x s', s = pre ++ x :: "@"%char :: s'
                         /\ JsText.nonspace x = true /\ JsText.domain s' = true).
Proof.
  induction s as [|c s IH]; intros prev.
  - cbn. split; [discriminate|].
    intros [[_ (s' & H & _)] | (pre & x & s' & H & _)]; [discriminate|].
    destruct pre; discriminate.
  - cbn [JsText.at_sign]. rewrite orb_true_iff, !andb_true_iff, Ascii.eqb_eq, IH.
    split.
    + intros [[[Hp ->] Hd] | [[Hc (s' & -> & Hd)] | (pre & x & s' & -> & Hx & Hd)]].
      * left. split; [exact Hp|]. now exists s.
      * right. exists [], c, s'. now repeat split.
      * right. exists (c :: pre), x, s'. now repeat split.
    + intros [[Hp (s' & E & Hd)] | (pre & x & s' & E & Hx & Hd)].
      * injection E as -> ->. now left.
      * right. destruct pre as [|c' pre]; cbn in E; injection E as -> ->.
        -- left. split; [exact Hx|]. now exists s'.
        -- right. now exists pre, x, s'.
Qed.

Lemma run_of_nonspace_last (a : list ascii) :
  JsText.run_of_nonspace a -> exists a' x, a = a' ++ [x] /\ JsText.nonspace x = true.
Proof.
  intros [Hne Hall]. destruct (exists_last Hne) as (a' & x & ->).
  exists a', x. split; [reflexivity|].
  unfold JsText.all_nonspace in Hall. rewrite forallb_app in Hall.
  apply andb_true_iff in Hall. destruct Hall as [_ Hx]. cbn in Hx.
  now rewrite andb_true_r in Hx.
Qed.

Lemma run_of_nonspace_first (c : list ascii) :
  JsText.run_of_nonspace c -> exists y c', c = y :: c' /\ JsText.nonspace y = true.
Proof.
  intros [Hne Hall]. destruct c as [|y c']; [contradiction|].
  exists y, c'. split; [reflexivity|].
  cbn in Hall. now apply andb_true_iff in Hall.
Qed.

Lemma run_of_nonspace_one (x : ascii) :
  JsText.nonspace x = true -> JsText.run_of_nonspace [x].
Proof. intros H. split; [discriminate|]. cbn. now rewrite H. Qed.

(** The one-pass test computes the pattern's [test]. *)
Lemma test_email_spec (s : string) :
  JsText.test_email s = true <-> JsText.Test JsText.emailPattern (list_ascii_of_string s).
Proof.
  unfold JsText.test_email, JsText.Test. rewrite at_sign_spec. split.
  - intros [[H _] | (pre & x & s' & E & Hx & Hd)]; [discriminate|].
    apply domain_spec in Hd. destruct Hd as (b & y & rest & -> & Hb & Hy).
    exists pre, ([x] ++ "@"%char :: b ++ "."%char :: [y]), rest. split.
    + rewrite E. cbn. f_equal. f_equal. now rewrite <- List.app_assoc.
    + apply emailPattern_spec. exists [x], b, [y].
      repeat split; auto using run_of_nonspace_one; try discriminate;
        try (cbn; now rewrite ?Hx, ?Hy); apply Hb.
  - intros (pre & m & post & E & Hm). right.
    apply emailPattern_spec in Hm. destruct Hm as (a & b & c & -> & Ha & Hb & Hc).
    destruct (run_of_nonspace_last a Ha) as (a' & x & -> & Hx).
    destruct (run_of_nonspace_first c Hc) as (y & c' & -> & Hy).
    exists (pre ++ a'), x, (b ++ "."%char :: y :: c' ++ post). split; [|split].
    + rewrite E. rewrite <- !List.app_assoc. cbn. rewrite <- !List.app_assoc. reflexivity.
    + exact Hx.
    + apply domain_spec. now exists b, y, (c' ++ post).
Qed.

Lemma chars_app (a b : string) :
  list_ascii_of_string (a +:+ b) = list_ascii_of_string a ++ list_ascii_of_string b.
Proof.
  induction a as [|c a IH]; [reflexivity|].
  change (c :: list_ascii_of_string (a +:+ b)
          = c :: (list_ascii_of_string a ++ list_ascii_of_string b)).
  now rewrite IH.
Qed.

Lemma not_blank_spec (s : string) :
  JsText.not_blank s <-> JsText.is_empty (JsText.trim s) = false.
Proof.
  rewrite trim_empty. unfold JsText.not_blank, JsText.nonspace.
  induction (list_ascii_of_string s) as [|c l IH]; cbn.
  - split; [intros (c & [] & _) | discriminate].
  - destruct (JsText.is_space c) eqn:Ec; cbn.
    + rewrite <- IH. split.
      * intros (x & [<- | Hx] & Hn); [rewrite Ec in Hn; discriminate | now exists x].
      * intros (x & Hx & Hn). exists x. split; [now right | exact Hn].
    + split; [reflexivity|]. intros _. exists c. split; [now left | now rewrite Ec].
Qed.

Lemma test_email_not_blank (s : string) :
  JsText.test_email s = true -> JsText.not_blank s.
Proof.
  intros H. apply test_email_spec in H. destruct H as (pre & m & post & E & Hm).
  apply emailPattern_spec in Hm. destruct Hm as (a & b & c & -> & Ha & _ & _).
  destruct (run_of_nonspace_first a Ha) as (y & a' & -> & Hy).
  exists y. split; [|exact Hy].
  rewrite E. apply List.in_or_app. right. now left.
Qed.

(** The e-mail check accepts exactly the strings in which, somewhere, a
    run of non-space characters is followed by ["@"], another such run, a
    dot and a third such run. The pattern has no anchors: text around an
    accepted address, white space included, does not get it rejected. *)
Theorem email_check_accepts_exactly :
  forall s : string,
    (JsText.test_email s = true <->
     JsText.Test JsText.emailPattern (list_ascii_of_string s))
    /\ (JsText.test_email s = true <->
        exists pre a b c post,
          list_ascii_of_string s = pre ++ (a ++ "@"%char :: b ++ "."%char :: c) ++ post
          /\ JsText.run_of_nonspace a /\ JsText.run_of_nonspace b
          /\ JsText.run_of_nonspace c)
    /\ (forall before after : string,
          JsText.test_email s = true ->
          JsText.test_email (before +:+ s +:+ after) = true).
Proof.
  intros s. split; [apply test_email_spec | split].
  - rewrite test_email_spec. unfold JsText.Test. split.
    + intros (pre & m & post & E & Hm). apply emailPattern_spec in Hm.
      destruct Hm as (a & b & c & -> & Ha & Hb & Hc). now exists pre, a, b, c, post.
    + intros (pre & a & b & c & post & E & Ha & Hb & Hc).
      exists pre, (a ++ "@"%char :: b ++ "."%char :: c), post. split; [exact E|].
      apply emailPattern_spec. now exists a, b, c.
  - intros before after. rewrite !test_email_spec.
    intros (pre & m & post & E & Hm).
    exists (list_ascii_of_string before ++ pre), m, (post ++ list_ascii_of_string after).
    split; [|exact Hm].
    rewrite !chars_app, E, <- !List.app_assoc. reflexivity.
Qed.

(** ** Sign-in and sign-up validation *)

Lemma sign_in_accepts (email password : string) :
  snd (SignIn.validate email password) = true <->
  JsText.test_email email = true /\ JsText.is_empty (JsText.trim password) = false.
Proof.
  pose proof (test_email_not_blank email) as Hnb. rewrite not_blank_spec in Hnb.
  unfold SignIn.validate. cbn [snd].
  destruct (JsText.is_empty (JsText.trim email)) eqn:Ee;
    destruct (JsText.test_email email) eqn:Et;
    destruct (JsText.is_empty (JsText.trim password)) eqn:Ep;
    cbn [negb]; try (specialize (Hnb eq_refl); discriminate);
    split; try easy; intros [? ?]; easy.
Qed.

(** Sign-in lets a submission through exactly when the e-mail contains a
    match of the e-mail pattern and the password has a character that is
    not white space; [login] is then called with the two inputs as typed,
    and is not called otherwise. An e-mail of white space only is
    reported as required, any other e-mail without a match as invalid,
    and a password of white space only as required. *)
Theorem sign_in_validation :
  forall email password : string,
    (snd (SignIn.validate email password) = true <->
     JsText.Test JsText.emailPattern (list_ascii_of_string email)
     /\ JsText.not_blank password)
    /\ snd (SignIn.handleSubmit email password)
       = (if snd (SignIn.validate email password) then Some (email, password) else None)
    /\ (SignIn.email (fst (SignIn.validate email password)) = Some "Email is required"
        <-> ~ JsText.not_blank email)
    /\ (SignIn.email (fst (SignIn.validate email password)) = Some "Invalid email address"
        <-> JsText.not_blank email
            /\ ~ JsText.Test JsText.emailPattern (list_ascii_of_string email))
    /\ (SignIn.password (fst (SignIn.validate email password)) = Some "Password is required"
        <-> ~ JsText.not_blank password)
    /\ fst (SignIn.handleSubmit email password) = fst (SignIn.validate email password).
Proof.
  intros email password.
  pose proof (test_email_not_blank email) as Hnb.
  rewrite <- !test_email_spec, !not_blank_spec in *.
  unfold SignIn.handleSubmit, SignIn.validate. cbn [fst snd SignIn.email SignIn.password].
  destruct (JsText.is_empty (JsText.trim email)) eqn:Ee;
    destruct (JsText.test_email email) eqn:Et;
    destruct (JsText.is_empty (JsText.trim password)) eqn:Ep;
    cbn [negb]; try (specialize (Hnb eq_refl); discriminate);
    repeat split; try easy; try (intros [? ?]; easy); intuition discriminate.
Qed.

Lemma key_inj (f g : SignUp.Field) : SignUp.key f = SignUp.key g -> f = g.
Proof. destruct f, g; cbn; congruence. Qed.

Lemma record_lookup (f g : SignUp.Field) (message : option string)
  (errors : gmap string string) :
  SignUp.record f message errors !! SignUp.key g
  = if decide (f = g)
    then match message with Some m => Some m | None => errors !! SignUp.key g end
    else errors !! SignUp.key g.
Proof.
  unfold SignUp.record. destruct message as [m|].
  - destruct (decide (f = g)) as [->|Hne].
    + apply lookup_insert_eq.
    + apply lookup_insert_ne. intros E. apply Hne. now apply key_inj.
  - now destruct (decide (f = g)).
Qed.

Lemma record_empty (f : SignUp.Field) (message : option string)
  (errors : gmap string string) :
  SignUp.record f message errors = ∅ <-> message = None /\ errors = ∅.
Proof.
  unfold SignUp.record. destruct message as [m|].
  - split; [|intros [? _]; discriminate].
    intros H. now apply insert_non_empty in H.
  - split; [now intros -> | now intros [_ ->]].
Qed.

Lemma userName_error_none (fd : SignUp.FormData) :
  SignUp.userName_error fd = None <-> (2 <= length (JsText.trim (SignUp.userName fd)))%nat.
Proof.
  unfold SignUp.userName_error.
  destruct (JsText.trim (SignUp.userName fd)) as [|u1 [|u2 us]];
    cbn [JsText.is_empty length Nat.ltb Nat.leb]; split; (discriminate || lia || auto).
Qed.

Lemma email_error_none (fd : SignUp.FormData) :
  SignUp.email_error fd = None <-> JsText.test_email (SignUp.email fd) = true.
Proof.
  unfold SignUp.email_error.
  pose proof (test_email_not_blank (SignUp.email fd)) as Hnb.
  rewrite not_blank_spec in Hnb.
  destruct (JsText.test_email (SignUp.email fd)).
  - rewrite (Hnb eq_refl). cbn. easy.
  - destruct (JsText.is_empty (JsText.trim (SignUp.email fd))); cbn; easy.
Qed.

Lemma password_error_none (fd : SignUp.FormData) :
  SignUp.password_error fd = None <-> (6 <= String.length (SignUp.password fd))%nat.
Proof.
  unfold SignUp.password_error.
  destruct (Nat.eqb_spec (String.length (SignUp.password fd)) 0) as [E0|N0].
  - split; [discriminate | lia].
  - destruct (Nat.ltb_spec (String.length (SignUp.password fd)) 6); split;
      (discriminate || lia || auto).
Qed.

Lemma confirmPassword_error_none (fd : SignUp.FormData) :
  SignUp.confirmPassword_error fd = None <->
  SignUp.confirmPassword fd <> "" /\ SignUp.confirmPassword fd = SignUp.password fd.
Proof.
  unfold SignUp.confirmPassword_error.
  destruct (SignUp.confirmPassword fd) as [|c cs] eqn:Ec.
  - cbn. split; [discriminate | intros [H _]; contradiction].
  - cbn [String.length Nat.eqb].
    destruct (String.eqb_spec (SignUp.password fd) (String c cs)) as [Eq|Ne]; cbn.
    + split; [intros _; split; [discriminate | now symmetry] | reflexivity].
    + split; [discriminate | intros [_ H]; congruence].
Qed.

Lemma sign_up_accepts (fd : SignUp.FormData) :
  snd (SignUp.validate fd) = true <->
  (2 <= length (JsText.trim (SignUp.userName fd)))%nat
  /\ JsText.test_email (SignUp.email fd) = true
  /\ (6 <= String.length (SignUp.password fd))%nat
  /\ SignUp.confirmPassword fd = SignUp.password fd.
Proof.
  unfold SignUp.validate. cbn [snd]. rewrite Nat.eqb_eq, map_size_empty_iff, !record_empty.
  rewrite userName_error_none, email_error_none, password_error_none,
    confirmPassword_error_none.
  split.
  - intros ([_ Hc] & Hp & He & Hu & _). auto.
  - intros (Hu & He & Hp & Hc). repeat split; auto.
    intros E. rewrite Hc in E. rewrite E in Hp. cbn in Hp. lia.
Qed.

(** Sign-up lets a submission through exactly when the trimmed user name
    has at least two characters, the e-mail contains a match of the
    e-mail pattern, the password has at least six characters and the
    confirmation equals the password; [register] is then called with the
    user name, e-mail and password as typed, and is not called otherwise.
    Each failed check is reported under the key of its own field. *)
Theorem sign_up_validation :
  forall formData : SignUp.FormData,
    (snd (SignUp.validate formData) = true <->
     (2 <= length (JsText.trim (SignUp.userName formData)))%nat
     /\ JsText.Test JsText.emailPattern (list_ascii_of_string (SignUp.email formData))
     /\ (6 <= String.length (SignUp.password formData))%nat
     /\ SignUp.confirmPassword formData = SignUp.password formData)
    /\ snd (SignUp.handleSubmit formData)
       = (if snd (SignUp.validate formData)
          then Some (SignUp.userName formData, SignUp.email formData,
                     SignUp.password formData)
          else None)
    /\ (forall field : SignUp.Field,
          fst (SignUp.validate formData) !! SignUp.key field
          = sign_up_error field formData).
Proof.
  intros fd. split; [|split].
  - rewrite <- test_email_spec. apply sign_up_accepts.
  - unfold SignUp.handleSubmit. destruct (SignUp.validate fd) as [errs ok]. reflexivity.
  - intros field. unfold SignUp.validate. cbn [fst]. rewrite !record_lookup.
    rewrite lookup_empty.
    destruct field; cbn [sign_up_error];
      repeat (destruct (decide _) as [?|?]; try discriminate; try contradiction);
      repeat match goal with
             | |- context [match ?x with Some _ => _ | None => _ end] => destruct x
             end; reflexivity.
Qed.

(** The two pages disagree on passwords made of white space: sign-up
    counts characters, sign-in trims first. For credentials that pass
    sign-up validation, sign-in validation passes exactly when the
    password has a character that is not white space; a password of six
    spaces is accepted at sign-up and refused, as missing, at sign-in. *)
Theorem blank_password_signs_up_but_not_in :
  forall formData : SignUp.FormData,
    snd (SignUp.validate formData) = true ->
    (snd (SignIn.validate (SignUp.email formData) (SignUp.password formData)) = true
     <-> JsText.not_blank (SignUp.password formData))
    /\ (~ JsText.not_blank (SignUp.password formData) ->
        fst (SignIn.validate (SignUp.email formData) (SignUp.password formData))
        = {| SignIn.email := None; SignIn.password := Some "Password is required" |}).
Proof.
  intros fd Hup.
  apply sign_up_accepts in Hup. destruct Hup as (_ & Hemail & _ & _).
  split.
  - rewrite sign_in_accepts, not_blank_spec. tauto.
  - intros Hblank. rewrite not_blank_spec in Hblank.
    pose proof (test_email_not_blank _ Hemail) as Hnb. rewrite not_blank_spec in Hnb.
    unfold SignIn.validate. cbn [fst]. rewrite Hnb, Hemail. cbn [negb].
    destruct (JsText.is_empty (JsText.trim (SignUp.password fd))); [reflexivity|].
    now elim Hblank.
Qed.

(** A password of six spaces. *)
Lemma blank_password_signs_up_but_not_in_witness :
  snd (SignUp.validate six_spaces_form) = true
  /\ fst (SignIn.validate (SignUp.email six_spaces_form) (SignUp.password six_spaces_form))
     = {| SignIn.email := None; SignIn.password := Some "Password is required" |}.
Proof.
  assert (H : snd (SignUp.validate six_spaces_form) = true) by (vm_compute; reflexivity).
  split; [exact H|].
  apply (blank_password_signs_up_but_not_in six_spaces_form H).
  rewrite not_blank_spec. vm_compute. intros E. discriminate.
Defined.

Lemma get_set_same (field : SignUp.Field) (value : string) (fd : SignUp.FormData) :
  SignUp.get field (SignUp.set field value fd) = value.
Proof. now destruct field. Qed.

Lemma get_set_other (field other : SignUp.Field) (value : string) (fd : SignUp.FormData) :
  other <> field -> SignUp.get other (SignUp.set field value fd) = SignUp.get other fd.
Proof. destruct field, other; intros H; try reflexivity; contradiction. Qed.

(** Typing into one field of the sign-up form changes that field and
    nothing else in the form; it clears the error shown for that field
    and leaves the errors of the other fields, and every other key of the
    errors object, as they were; without an error on the field the errors
    object is not touched at all. *)
Theorem handle_change_touches_one_field :
  forall (field : SignUp.Field) (value : string) (formData : SignUp.FormData)
         (errors : gmap string string),
    SignUp.get field (fst (SignUp.handleChange field value (formData, errors))) = value
    /\ (forall other, other <> field ->
          SignUp.get other (fst (SignUp.handleChange field value (formData, errors)))
          = SignUp.get other formData)
    /\ SignUp.has_error (snd (SignUp.handleChange field value (formData, errors))) field
       = false
    /\ (forall k : string, k <> SignUp.key field ->
          snd (SignUp.handleChange field value (formData, errors)) !! k = errors !! k)
    /\ (SignUp.has_error errors field = false ->
        snd (SignUp.handleChange field value (formData, errors)) = errors).
Proof.
  intros field value fd errors. unfold SignUp.handleChange. cbn [fst snd].
  split; [apply get_set_same | split; [intros other; apply get_set_other | split; [|split]]].
  - destruct (SignUp.has_error errors field) eqn:E; [|exact E].
    unfold SignUp.has_error. now rewrite lookup_insert_eq.
  - intros k Hk. destruct (SignUp.has_error errors field); [|reflexivity].
    now rewrite lookup_insert_ne by congruence.
  - now intros ->.
Qed.

(** ** The loading effect *)

Lemma deps_changed_spec (prev cur : Home.LoadDeps) :
  Home.deps_changed prev cur = true <-> prev <> cur.
Proof.
  unfold Home.deps_changed. destruct prev as [u1 t1 n1], cur as [u2 t2 n2]. cbn.
  rewrite negb_true_iff, !andb_false_iff, bool_decide_eq_false, String.eqb_neq, Z.eqb_neq.
  split.
  - intros [[H | H] | H] E; injection E; intros; contradiction.
  - intros H. destruct (decide (u1 = u2)) as [->|]; [|tauto].
    destruct (String.eqb_spec t1 t2) as [->|]; [|tauto].
    destruct (Z.eq_dec n1 n2) as [->|]; [|tauto].
    now elim H.
Qed.

(** The loading effect makes a [loadPage] call exactly when a user is
    signed in and the render is the first one or one of the effect's
    dependencies (user, debounced term, page size) differs from the
    previous render; the call is always for page 1, with the current page
    size and debounced term. A render that changes none of them, such as
    one caused by a keystroke or by a change of sort mode, makes no
    call. *)
Theorem loading_effect_calls_exactly :
  forall (prev : option Home.LoadDeps) (cur : Home.LoadDeps) (q : Request),
    Home.after_render prev cur = Some q <->
    (exists u, Home.d_user cur = Some u)
    /\ (prev = None \/ exists p, prev = Some p /\ p <> cur)
    /\ q = {| q_page := 1; q_per_page := Home.d_per_page cur;
              q_search := Home.d_debouncedSearchTerm cur |}.
Proof.
  intros prev cur q. unfold Home.after_render, Home.load_effect.
  destruct prev as [p|].
  - destruct (Home.deps_changed p cur) eqn:E.
    + apply deps_changed_spec in E.
      destruct (Home.d_user cur) as [u|]; split.
      * intros H. injection H as <-. repeat split; eauto.
      * intros (_ & _ & ->). reflexivity.
      * discriminate.
      * intros ([u Hu] & _). discriminate.
    + split; [discriminate|].
      intros (_ & [Hp | (p' & Hp & Hne)] & _); [discriminate|].
      injection Hp as <-. apply deps_changed_spec in Hne. congruence.
  - destruct (Home.d_user cur) as [u|]; split.
    + intros H. injection H as <-. repeat split; eauto.
    + intros (_ & _ & ->). reflexivity.
    + discriminate.
    + intros ([u Hu] & _). discriminate.
Qed.

(** ** The meta tags effect *)

Lemma selects_overwrite1 (t t' : App.MetaTag) (m : App.Meta) :
  App.selects t (App.overwrite1 m t') = App.selects t m.
Proof. unfold App.overwrite1. now destruct (App.selects t' m). Qed.

Lemma selects_overwrite (t : App.MetaTag) (tags : list App.MetaTag) :
  forall m, App.selects t (App.overwrite tags m) = App.selects t m.
Proof.
  induction tags as [|t' tags IH]; intros m; [reflexivity|].
  cbn. unfold App.overwrite in IH. now rewrite IH, selects_overwrite1.
Qed.

Lemma overwrite_cons (t : App.MetaTag) (tags : list App.MetaTag) (m : App.Meta) :
  App.overwrite (t :: tags) m = App.overwrite tags (App.overwrite1 m t).
Proof. reflexivity. Qed.

Lemma forEach_cons (t : App.MetaTag) (tags : list App.MetaTag) (ms : list App.Meta) :
  App.forEach_in (t :: tags) ms = App.forEach_in tags (App.upsert_in t ms).
Proof. reflexivity. Qed.

(** The tags that do not select [m]. *)
Lemma passing_set_content (tags : list App.MetaTag) (c : string) (m : App.Meta) :
  List.filter (fun t => negb (App.selects t (App.set_content c m))) tags
  = List.filter (fun t => negb (App.selects t m)) tags.
Proof. apply List.filter_ext. reflexivity. Qed.

(** The effect element by element: the first element receives the content
    of the last tag that selects it, and the tags that do not select it
    go on to the rest of the document. *)
Lemma forEach_head (tags : list App.MetaTag) :
  forall (m : App.Meta) (rest : list App.Meta),
    App.forEach_in tags (m :: rest)
    = App.overwrite tags m
      :: App.forEach_in (List.filter (fun t => negb (App.selects t m)) tags) rest.
Proof.
  induction tags as [|t tags IH]; intros m rest; [reflexivity|].
  rewrite forEach_cons, overwrite_cons. cbn [App.upsert_in List.filter].
  unfold App.overwrite1. destruct (App.selects t m) eqn:E; cbn [negb].
  - rewrite IH. now rewrite passing_set_content.
  - rewrite IH. reflexivity.
Qed.

Lemma overwrite_unselected (tags : list App.MetaTag) :
  forall m, existsb (fun t => App.selects t m) tags = false -> App.overwrite tags m = m.
Proof.
  induction tags as [|t tags IH]; intros m H; [reflexivity|].
  cbn in H. apply orb_false_iff in H. destruct H as [Ht H].
  rewrite overwrite_cons. unfold App.overwrite1. rewrite Ht. now apply IH.
Qed.

Lemma overwrite_selected (tags : list App.MetaTag) :
  forall (m : App.Meta) (c : string),
    existsb (fun t => App.selects t m) tags = true ->
    App.overwrite tags (App.set_content c m) = App.overwrite tags m.
Proof.
  induction tags as [|t tags IH]; intros m c H; [discriminate|].
  rewrite !overwrite_cons. unfold App.overwrite1.
  change (App.selects t (App.set_content c m)) with (App.selects t m).
  destruct (App.selects t m) eqn:E.
  - reflexivity.
  - cbn in H. rewrite E in H. now apply IH.
Qed.

Lemma overwrite_shape (tags : list App.MetaTag) :
  forall m, App.overwrite tags m = m
            \/ exists c, App.overwrite tags m = App.set_content c m.
Proof.
  induction tags as [|t tags IH]; intros m; [now left|].
  rewrite overwrite_cons. unfold App.overwrite1. destruct (App.selects t m).
  - right. destruct (IH (App.set_content (App.t_content t) m)) as [-> | [c ->]].
    + now exists (App.t_content t).
    + now exists c.
  - apply IH.
Qed.

Lemma overwrite_idem (tags : list App.MetaTag) (m : App.Meta) :
  App.overwrite tags (App.overwrite tags m) = App.overwrite tags m.
Proof.
  destruct (existsb (fun t => App.selects t m) tags) eqn:E.
  - destruct (overwrite_shape tags m) as [H | [c Hc]]; [rewrite H; exact H|].
    rewrite Hc at 1. rewrite overwrite_selected by exact E. reflexivity.
  - rewrite (overwrite_unselected tags m E). now apply overwrite_unselected.
Qed.

Lemma keyed_selects_created (t : App.MetaTag) :
  App.keyed t = true -> App.selects t (App.create t) = true.
Proof.
  unfold App.keyed, App.selects, App.create. destruct t as [[n|] [p|] c]; cbn.
  - destruct (negb (String.eqb n "")); cbn.
    + intros _. now apply bool_decide_eq_true_2.
    + intros H. rewrite H. now apply bool_decide_eq_true_2.
  - rewrite orb_false_r. intros ->. now apply bool_decide_eq_true_2.
  - intros H. rewrite H. now apply bool_decide_eq_true_2.
  - discriminate.
Qed.

Lemma passing_overwrite (tags tags' : list App.MetaTag) (m : App.Meta) :
  List.filter (fun t => negb (App.selects t (App.overwrite tags' m))) tags
  = List.filter (fun t => negb (App.selects t m)) tags.
Proof. apply List.filter_ext. intros t. now rewrite selects_overwrite. Qed.

Lemma selecting_overwrite (tags tags' : list App.MetaTag) (m : App.Meta) :
  existsb (fun t => App.selects t (App.overwrite tags' m)) tags
  = existsb (fun t => App.selects t m) tags.
Proof.
  induction tags as [|t tags IH]; [reflexivity|].
  cbn. now rewrite IH, selects_overwrite.
Qed.

Lemma all_keyed_filter (p : App.MetaTag -> bool) (tags : list App.MetaTag) :
  forallb App.keyed tags = true -> forallb App.keyed (List.filter p tags) = true.
Proof.
  rewrite !forallb_forall. intros H t Ht. apply List.filter_In in Ht. now apply H.
Qed.

(** On the empty document, by induction on a bound of the number of tags. *)
Lemma forEach_idem_nil (n : nat) :
  forall tags : list App.MetaTag,
    (length tags <= n)%nat -> forallb App.keyed tags = true ->
    App.forEach_in tags (App.forEach_in tags []) = App.forEach_in tags [].
Proof.
  induction n as [|n IH]; intros tags Hlen Hkeyed.
  - destruct tags; [reflexivity | cbn in Hlen; lia].
  - destruct tags as [|t tags]; [reflexivity|].
    cbn in Hkeyed. apply andb_true_iff in Hkeyed. destruct Hkeyed as [Ht Hkeyed].
    assert (E0 : App.forEach_in (t :: tags) []
                 = App.overwrite tags (App.create t)
                   :: App.forEach_in
                        (List.filter (fun t0 => negb (App.selects t0 (App.create t))) tags)
                        []).
    { rewrite forEach_cons. cbn [App.upsert_in]. apply forEach_head. }
    rewrite E0. rewrite forEach_head. cbn [List.filter].
    rewrite selects_overwrite, (keyed_selects_created t Ht). cbn [negb].
    rewrite passing_overwrite.
    rewrite IH.
    2:{ pose proof (List.filter_length_le
                      (fun t0 => negb (App.selects t0 (App.create t))) tags).
        cbn in Hlen. lia. }
    2:{ now apply all_keyed_filter. }
    f_equal. rewrite overwrite_cons. unfold App.overwrite1.
    rewrite selects_overwrite, (keyed_selects_created t Ht).
    destruct (existsb (fun t0 => App.selects t0 (App.create t)) tags) eqn:E.
    + rewrite overwrite_selected.
      * apply overwrite_idem.
      * now rewrite selecting_overwrite.
    + rewrite (overwrite_unselected tags _ E).
      change (App.set_content (App.t_content t) (App.create t)) with (App.create t).
      now apply overwrite_unselected.
Qed.

Lemma forEach_idem (ms : list App.Meta) :
  forall tags : list App.MetaTag,
    forallb App.keyed tags = true ->
    App.forEach_in tags (App.forEach_in tags ms) = App.forEach_in tags ms.
Proof.
  induction ms as [|m rest IH]; intros tags Hkeyed.
  - now apply (forEach_idem_nil (length tags)).
  - rewrite forEach_head. rewrite forEach_head.
    rewrite overwrite_idem, passing_overwrite.
    rewrite IH; [reflexivity|]. now apply all_keyed_filter.
Qed.

Lemma upsert_finds_own (t : App.MetaTag) (ms : list App.Meta) :
  App.keyed t = true -> existsb (App.selects t) (App.upsert_in t ms) = true.
Proof.
  intros Ht. induction ms as [|m rest IH]; cbn [App.upsert_in].
  - cbn. now rewrite (keyed_selects_created t Ht).
  - destruct (App.selects t m) eqn:E; cbn [existsb].
    + change (App.selects t (App.set_content (App.t_content t) m)) with (App.selects t m).
      now rewrite E.
    + now rewrite E, IH.
Qed.

Lemma upsert_keeps_found (t t' : App.MetaTag) (ms : list App.Meta) :
  existsb (App.selects t) ms = true -> existsb (App.selects t) (App.upsert_in t' ms) = true.
Proof.
  induction ms as [|m rest IH]; [discriminate|].
  cbn [App.upsert_in existsb]. intros H. destruct (App.selects t' m); cbn [existsb].
  - exact H.
  - destruct (App.selects t m); [reflexivity|]. now apply IH.
Qed.

Lemma forEach_keeps_found (t : App.MetaTag) (tags : list App.MetaTag) :
  forall ms, existsb (App.selects t) ms = true ->
             existsb (App.selects t) (App.forEach_in tags ms) = true.
Proof.
  induction tags as [|t' tags IH]; intros ms H; [exact H|].
  rewrite forEach_cons. apply IH. now apply upsert_keeps_found.
Qed.

Lemma forEach_finds_all (t : App.MetaTag) (tags : list App.MetaTag) :
  forall ms, In t tags -> App.keyed t = true ->
             existsb (App.selects t) (App.forEach_in tags ms) = true.
Proof.
  induction tags as [|t' tags IH]; intros ms Hin Ht; [destruct Hin|].
  rewrite forEach_cons. destruct Hin as [-> | Hin].
  - apply forEach_keeps_found. now apply upsert_finds_own.
  - now apply IH.
Qed.

Lemma find_of_existsb {A : Type} (p : A -> bool) (l : list A) :
  existsb p l = true -> exists x, List.find p l = Some x.
Proof.
  induction l as [|a l IH]; [discriminate|].
  cbn. destruct (p a); [intros _; now exists a | exact IH].
Qed.

Lemma upsert_length (t : App.MetaTag) (ms : list App.Meta) :
  (length ms <= length (App.upsert_in t ms) <= S (length ms))%nat.
Proof.
  induction ms as [|m rest IH]; cbn [App.upsert_in]; [cbn; lia|].
  destruct (App.selects t m); cbn [length]; lia.
Qed.

Lemma forEach_length (tags : list App.MetaTag) :
  forall ms, (length ms <= length (App.forEach_in tags ms) <= length ms + length tags)%nat.
Proof.
  induction tags as [|t tags IH]; intros ms; [cbn; lia|].
  rewrite forEach_cons. specialize (IH (App.upsert_in t ms)).
  pose proof (upsert_length t ms). cbn [length]. lia.
Qed.

Lemma unselected_by_fewer (p : App.MetaTag -> bool) (tags : list App.MetaTag) (m : App.Meta) :
  existsb (fun t => App.selects t m) tags = false ->
  existsb (fun t => App.selects t m) (List.filter p tags) = false.
Proof.
  induction tags as [|t tags IH]; [reflexivity|].
  cbn. intros H. apply orb_false_iff in H. destruct H as [Ht H].
  destruct (p t); cbn; [rewrite Ht|]; now apply IH.
Qed.

(** Elements keep their place and their attributes; an element no tag
    selects keeps its content too. *)
Lemma forEach_lookup (ms : list App.Meta) :
  forall (tags : list App.MetaTag) (i : nat) (m : App.Meta),
    ms !! i = Some m ->
    exists m', App.forEach_in tags ms !! i = Some m'
               /\ App.attributes m' = App.attributes m
               /\ (existsb (fun t => App.selects t m) tags = false -> m' = m).
Proof.
  induction ms as [|m0 rest IH]; intros tags i m Hi; [discriminate|].
  rewrite forEach_head. destruct i as [|i]; cbn in Hi |- *.
  - injection Hi as <-. exists (App.overwrite tags m0). split; [reflexivity|]. split.
    + destruct (overwrite_shape tags m0) as [-> | [c ->]]; reflexivity.
    + apply overwrite_unselected.
  - destruct (IH (List.filter (fun t => negb (App.selects t m0)) tags) i m Hi)
      as (m' & Hm' & Hattr & Hsame).
    exists m'. repeat split; auto.
    intros H. apply Hsame. now apply unselected_by_fewer.
Qed.

Lemma overwrite_agreed (tags : list App.MetaTag) :
  forall (m : App.Meta) (c : string),
    (forall t, In t tags -> App.selects t m = true -> App.t_content t = c) ->
    existsb (fun t => App.selects t m) tags = true ->
    App.overwrite tags m = App.set_content c m.
Proof.
  induction tags as [|t tags IH]; intros m c Hc Hex; [discriminate|].
  rewrite overwrite_cons. unfold App.overwrite1. cbn in Hex.
  destruct (App.selects t m) eqn:E.
  - rewrite (Hc t (or_introl eq_refl) E).
    destruct (existsb (fun t0 => App.selects t0 m) tags) eqn:Ex.
    + rewrite (IH (App.set_content c m) c); [reflexivity | | exact Ex].
      intros t' Ht' Hs. apply Hc; [now right | exact Hs].
    + now apply overwrite_unselected.
  - apply IH; [|exact Hex]. intros t' Ht'. apply Hc. now right.
Qed.

Lemma selecting_In (tags : list App.MetaTag) (t : App.MetaTag) (m : App.Meta) :
  In t tags -> App.selects t m = true -> existsb (fun t0 => App.selects t0 m) tags = true.
Proof. intros Hin Hs. apply List.existsb_exists. now exists t. Qed.

Lemma distinct_keys_filter (p : App.MetaTag -> bool) (tags : list App.MetaTag) :
  App.distinct_keys tags -> App.distinct_keys (List.filter p tags).
Proof.
  intros [Hk Hc]. split; [now apply all_keyed_filter|].
  intros t1 t2 H1 H2. apply List.filter_In in H1, H2. apply Hc; tauto.
Qed.

Lemma content_set_nil (n : nat) :
  forall tags : list App.MetaTag,
    (length tags <= n)%nat -> App.distinct_keys tags ->
    forall t, In t tags ->
      exists m, List.find (App.selects t) (App.forEach_in tags []) = Some m
                /\ App.content m = Some (App.t_content t).
Proof.
  induction n as [|n IH]; intros tags Hlen Hd t Hin.
  - destruct tags; [destruct Hin | cbn in Hlen; lia].
  - destruct tags as [|t0 tags]; [destruct Hin|].
    assert (E0 : App.forEach_in (t0 :: tags) []
                 = App.overwrite tags (App.create t0)
                   :: App.forEach_in
                        (List.filter (fun t1 => negb (App.selects t1 (App.create t0))) tags)
                        []).
    { rewrite forEach_cons. cbn [App.upsert_in]. apply forEach_head. }
    rewrite E0. cbn [List.find]. rewrite selects_overwrite.
    destruct Hd as [Hk Hc].
    assert (Ht0 : App.keyed t0 = true).
    { cbn in Hk. now apply andb_true_iff in Hk. }
    destruct (App.selects t (App.create t0)) eqn:Es.
    + assert (t = t0) as -> by (apply Hc; [now left | exact Hin | exact Es]).
      eexists. split; [reflexivity|].
      destruct (existsb (fun t1 => App.selects t1 (App.create t0)) tags) eqn:Ex.
      * rewrite (overwrite_agreed tags (App.create t0) (App.t_content t0)); [reflexivity| |exact Ex].
        intros t' Ht' Hs. f_equal. apply Hc; [now left | now right | exact Hs].
      * now rewrite overwrite_unselected.
    + assert (Hin' : In t tags).
      { destruct Hin as [<- | Hin]; [|exact Hin].
        rewrite (keyed_selects_created t0 Ht0) in Es. discriminate. }
      apply IH.
      * pose proof (List.filter_length_le
                      (fun t1 => negb (App.selects t1 (App.create t0))) tags).
        cbn in Hlen. lia.
      * apply distinct_keys_filter. split.
        -- cbn in Hk. now apply andb_true_iff in Hk.
        -- intros t1 t2 H1 H2. apply Hc; now right.
      * apply List.filter_In. split; [exact Hin'|]. now rewrite Es.
Qed.

Lemma content_set (ms : list App.Meta) :
  forall tags : list App.MetaTag,
    App.distinct_keys tags -> App.one_tag_each tags ms ->
    forall t, In t tags ->
      exists m, List.find (App.selects t) (App.forEach_in tags ms) = Some m
                /\ App.content m = Some (App.t_content t).
Proof.
  induction ms as [|m0 rest IH]; intros tags Hd Ho t Hin.
  - now apply (content_set_nil (length tags)).
  - rewrite forEach_head. cbn [List.find]. rewrite selects_overwrite.
    destruct (App.selects t m0) eqn:Es.
    + eexists. split; [reflexivity|].
      rewrite (overwrite_agreed tags m0 (App.t_content t)); [reflexivity| |].
      * intros t' Ht' Hs. f_equal. apply (Ho m0); auto; now left.
      * now apply (selecting_In tags t).
    + apply IH.
      * now apply distinct_keys_filter.
      * intros m t1 t2 Hm H1 H2. apply List.filter_In in H1, H2.
        apply (Ho m); try tauto. now right.
      * apply List.filter_In. split; [exact Hin|]. now rewrite Es.
Qed.

Lemma metaTags_distinct_keys : App.distinct_keys App.metaTags.
Proof.
  split; [reflexivity|].
  intros t1 t2 H1 H2 Hs. cbn in H1, H2.
  repeat (destruct H1 as [<- | H1]); try contradiction;
    repeat (destruct H2 as [<- | H2]); try contradiction;
    first [reflexivity | vm_compute in Hs; discriminate].
Qed.

(** ** The sorted, stable arrangement is unique *)

Section StableUnique.
Context {A : Type} (cmp : A -> A -> Z).
Hypothesis Hc : JsArray.Consistent cmp.

Lemma cmp_refl (a : A) : cmp a a = 0.
Proof.
  pose proof (JsArray.cmp_antisym cmp Hc a a) as H.
  destruct (Z.sgn_spec (cmp a a)) as [[? ?]|[[? ?]|[? ?]]]; lia.
Qed.

Lemma class_head (a : A) (l : list A) :
  List.filter (JsArray.cmp_eqb cmp a) (a :: l)
  = a :: List.filter (JsArray.cmp_eqb cmp a) l.
Proof. cbn. unfold JsArray.cmp_eqb at 1. now rewrite cmp_refl. Qed.

Lemma in_own_class (b : A) (l1 l2 : list A) :
  List.filter (JsArray.cmp_eqb cmp b) l1 = List.filter (JsArray.cmp_eqb cmp b) (b :: l2) ->
  In b l1.
Proof.
  rewrite class_head. intros H.
  assert (Hin : In b (List.filter (JsArray.cmp_eqb cmp b) l1)) by (rewrite H; now left).
  now apply List.filter_In in Hin.
Qed.

Lemma stable_sorted_unique (l1 : list A) :
  forall l2 : list A,
    StronglySorted (JsArray.cmp_le cmp) l1 ->
    StronglySorted (JsArray.cmp_le cmp) l2 ->
    (forall z, List.filter (JsArray.cmp_eqb cmp z) l1
               = List.filter (JsArray.cmp_eqb cmp z) l2) ->
    l1 = l2.
Proof.
  induction l1 as [|a l1 IH]; intros l2 H1 H2 Hcls.
  - destruct l2 as [|b l2]; [reflexivity|].
    specialize (Hcls b). rewrite class_head in Hcls. discriminate.
  - destruct l2 as [|b l2].
    + specialize (Hcls a). rewrite class_head in Hcls. discriminate.
    + apply StronglySorted_inv in H1. destruct H1 as [H1 Ha].
      apply StronglySorted_inv in H2. destruct H2 as [H2 Hb].
      rewrite List.Forall_forall in Ha, Hb.
      assert (Hab : a = b).
      { destruct (Z.eq_dec (cmp a b) 0) as [E | N].
        - pose proof (Hcls a) as H. rewrite class_head in H.
          cbn in H. unfold JsArray.cmp_eqb at 2 in H.
          apply Z.eqb_eq in E. rewrite E in H. now injection H.
        - exfalso.
          assert (Hb1 : In b (a :: l1)) by (apply (in_own_class b _ l2), Hcls).
          assert (Ha2 : In a (b :: l2)).
          { apply (in_own_class a _ l1). symmetry. apply Hcls. }
          destruct Hb1 as [E | Hb1]; [subst; now rewrite cmp_refl in N|].
          destruct Ha2 as [E | Ha2]; [subst; now rewrite cmp_refl in N|].
          pose proof (Ha b Hb1) as Hle1. pose proof (Hb a Ha2) as Hle2.
          unfold JsArray.cmp_le in Hle1, Hle2.
          pose proof (JsArray.cmp_antisym cmp Hc a b) as Hs.
          destruct (Z.sgn_spec (cmp a b)) as [[? ?]|[[? ?]|[? ?]]];
            destruct (Z.sgn_spec (cmp b a)) as [[? ?]|[[? ?]|[? ?]]]; lia. }
      subst b. f_equal. apply IH; auto.
      intros z. specialize (Hcls z). cbn in Hcls.
      destruct (JsArray.cmp_eqb cmp z a); [now injection Hcls | exact Hcls].
Qed.

End StableUnique.

(** The displayed list is the only arrangement of the filtered cache that
    is in the order of the sort mode and keeps notes that compare equal
    in their cache order: any stable sort computes this very list. *)
Theorem displayed_order_is_the_stable_sort :
  forall (localeCompare : string -> string -> Z) (notes : list Note)
         (searchTerm : string) (sortBy : SortBy) (shown : list Note),
    JsArray.Consistent localeCompare ->
    StronglySorted (JsArray.cmp_le (Home.comparator localeCompare sortBy)) shown ->
    (forall z, List.filter (JsArray.cmp_eqb (Home.comparator localeCompare sortBy) z) shown
               = List.filter (JsArray.cmp_eqb (Home.comparator localeCompare sortBy) z)
                   (List.filter (Home.matches searchTerm) notes)) ->
    shown = Home.filteredAndSortedNotes localeCompare notes searchTerm sortBy.
Proof.
  intros lc notes term sortBy shown Hc Hsorted Hstable.
  pose proof (comparator_consistent lc sortBy Hc) as Hcmp.
  rewrite filteredAndSortedNotes_eq.
  apply (stable_sorted_unique (Home.comparator lc sortBy) Hcmp); auto.
  - now apply sort_strongly_sorted.
  - intros z. rewrite Hstable. symmetry. now apply sort_stable.
Qed.

(** A cache that is already in title order, two of its titles equal. *)
Lemma displayed_order_is_the_stable_sort_witness :
  JsArray.Consistent Collation.localeCompare
  /\ [titled "2" "Fig"; titled "1" "pear"; titled "3" "pear"]
     = Home.filteredAndSortedNotes Collation.localeCompare
         [titled "2" "Fig"; titled "1" "pear"; titled "3" "pear"] "" Title.
Proof.
  split; [exact localeCompare_consistent|].
  apply (displayed_order_is_the_stable_sort Collation.localeCompare
           [titled "2" "Fig"; titled "1" "pear"; titled "3" "pear"] "" Title
           [titled "2" "Fig"; titled "1" "pear"; titled "3" "pear"]
           localeCompare_consistent).
  - repeat constructor; vm_compute; discriminate.
  - intros z. cbn [List.filter]. now rewrite !matches_empty.
Defined.

(** ** The meta tags effect on head and body *)

Lemma found_upsert_in (t t0 : App.MetaTag) (ms : list App.Meta) :
  App.found t (App.upsert_in t0 ms)
  = App.found t ms || negb (App.found t0 ms) && App.selects t (App.create t0).
Proof.
  unfold App.found. induction ms as [|m rest IH]; cbn [App.upsert_in existsb].
  - cbn. now rewrite orb_false_r.
  - destruct (App.selects t0 m) eqn:E; cbn [existsb]; rewrite ?E.
    + change (App.selects t (App.set_content (App.t_content t0) m)) with (App.selects t m).
      cbn [orb negb andb]. now rewrite orb_false_r.
    + rewrite IH. cbn [orb]. now rewrite orb_assoc.
Qed.

Lemma in_head_upsert (t t0 : App.MetaTag) (ms : App.Metas) :
  (App.selects t (App.create t0) = true -> t = t0) ->
  App.in_head (App.upsert t0 ms) t = App.in_head ms t.
Proof.
  intros Hd. destruct ms as [h b]. unfold App.upsert.
  destruct (App.in_head (h, b) t0) eqn:E0; unfold App.in_head in *; cbn [fst snd] in *.
  - rewrite found_upsert_in.
    destruct (negb (App.found t0 h) && App.selects t (App.create t0)) eqn:Ex.
    + apply andb_true_iff in Ex. destruct Ex as [Hn Hs]. rewrite (Hd Hs) in *.
      apply negb_true_iff in Hn. rewrite Hn in E0 |- *. cbn in E0 |- *.
      now rewrite E0.
    + now rewrite orb_false_r.
  - apply orb_false_iff in E0. destruct E0 as [_ Hb]. apply negb_false_iff in Hb.
    now rewrite found_upsert_in, Hb, andb_false_l, orb_false_r.
Qed.

Lemma in_head_forEach (t : App.MetaTag) (tags : list App.MetaTag) :
  forall ms : App.Metas,
    (forall t0, In t0 tags -> App.selects t (App.create t0) = true -> t = t0) ->
    App.in_head (App.forEach tags ms) t = App.in_head ms t.
Proof.
  induction tags as [|t0 tags IH]; intros ms Hd; [reflexivity|].
  change (App.forEach (t0 :: tags) ms) with (App.forEach tags (App.upsert t0 ms)).
  rewrite IH by (intros t1 H1; apply Hd; now right).
  apply in_head_upsert. apply Hd. now left.
Qed.

(** The tags whose element is in [head] act on the children of [head],
    the others on the rest of the document. *)
Lemma forEach_split (tags : list App.MetaTag) :
  forall ms : App.Metas,
    (forall t1 t2, In t1 tags -> In t2 tags ->
                   App.selects t2 (App.create t1) = true -> t2 = t1) ->
    App.forEach tags ms
    = (App.forEach_in (List.filter (App.in_head ms) tags) (fst ms),
       App.forEach_in (List.filter (fun t => negb (App.in_head ms t)) tags) (snd ms)).
Proof.
  induction tags as [|t0 tags IH]; intros ms Hd; [now destruct ms|].
  change (App.forEach (t0 :: tags) ms) with (App.forEach tags (App.upsert t0 ms)).
  rewrite IH by (intros t1 t2 H1 H2; apply Hd; now right).
  assert (Hsame : forall t, In t tags ->
            App.in_head (App.upsert t0 ms) t = App.in_head ms t).
  { intros t Ht. apply in_head_upsert. apply Hd; [now left | now right]. }
  rewrite (List.filter_ext_in _ (App.in_head ms) tags Hsame).
  rewrite (List.filter_ext_in (fun t => negb (App.in_head (App.upsert t0 ms) t))
             (fun t => negb (App.in_head ms t)) tags)
    by (intros t Ht; now rewrite Hsame).
  cbn [List.filter]. unfold App.upsert.
  destruct (App.in_head ms t0); cbn [fst snd negb]; reflexivity.
Qed.

Lemma metaTags_split (ms : App.Metas) :
  App.forEach App.metaTags ms
  = (App.forEach_in (List.filter (App.in_head ms) App.metaTags) (fst ms),
     App.forEach_in (List.filter (fun t => negb (App.in_head ms t)) App.metaTags) (snd ms)).
Proof. apply forEach_split. apply metaTags_distinct_keys. Qed.

Lemma metaTags_in_head (ms : App.Metas) (t : App.MetaTag) :
  In t App.metaTags ->
  App.in_head (App.forEach App.metaTags ms) t = App.in_head ms t.
Proof.
  intros Ht. apply in_head_forEach. intros t0 H0 Hs.
  now apply (proj2 metaTags_distinct_keys).
Qed.

Lemma metaTags_keyed (p : App.MetaTag -> bool) :
  forallb App.keyed (List.filter p App.metaTags) = true.
Proof. now apply all_keyed_filter. Qed.

Lemma forEach_metaTags_idem (ms : App.Metas) :
  App.forEach App.metaTags (App.forEach App.metaTags ms) = App.forEach App.metaTags ms.
Proof.
  rewrite (metaTags_split (App.forEach App.metaTags ms)).
  rewrite (List.filter_ext_in _ (App.in_head ms) App.metaTags (metaTags_in_head ms)).
  rewrite (List.filter_ext_in
             (fun t => negb (App.in_head (App.forEach App.metaTags ms) t))
             (fun t => negb (App.in_head ms t)) App.metaTags)
    by (intros t Ht; now rewrite metaTags_in_head).
  rewrite (metaTags_split ms). cbn [fst snd].
  now rewrite !forEach_idem by apply metaTags_keyed.
Qed.

Lemma find_app_found {A : Type} (p : A -> bool) (l1 l2 : list A) (x : A) :
  List.find p l1 = Some x -> List.find p (l1 ++ l2) = Some x.
Proof.
  induction l1 as [|a l1 IH]; [discriminate|].
  cbn. destruct (p a); [easy | exact IH].
Qed.

Lemma find_app_missing {A : Type} (p : A -> bool) (l1 l2 : list A) :
  existsb p l1 = false -> List.find p (l1 ++ l2) = List.find p l2.
Proof.
  induction l1 as [|a l1 IH]; [reflexivity|].
  cbn. destruct (p a); [discriminate | exact IH].
Qed.

Lemma upsert_in_length_found (t : App.MetaTag) (ms : list App.Meta) :
  App.found t ms = true -> length (App.upsert_in t ms) = length ms.
Proof.
  unfold App.found. induction ms as [|m rest IH]; [discriminate|].
  cbn [existsb App.upsert_in]. destruct (App.selects t m); [reflexivity|].
  cbn. intros H. now rewrite IH.
Qed.

Lemma forEach_in_length_found (tags : list App.MetaTag) :
  forall ms, (forall t, In t tags -> App.found t ms = true) ->
             length (App.forEach_in tags ms) = length ms.
Proof.
  induction tags as [|t0 tags IH]; intros ms H; [reflexivity|].
  rewrite forEach_cons, IH.
  - apply upsert_in_length_found. apply H. now left.
  - intros t Ht. apply upsert_keeps_found. apply H. now right.
Qed.

(** Running the effect a second time changes nothing: the tags are all
    there after the first run, so none is added twice and each content
    set again is the one already in place. *)
Theorem meta_effect_is_idempotent :
  forall doc : App.Document, App.effect (App.effect doc) = App.effect doc.
Proof.
  intros doc. unfold App.effect. cbn [App.head App.body App.title].
  rewrite <- surjective_pairing. now rewrite forEach_metaTags_idem.
Qed.

(** In a document none of whose elements is selected by two of the tags
    (none carries both a name and a property of the array), the effect
    leaves, for each tag, the tag's content on the element its selector
    finds. *)
Theorem meta_effect_sets_each_content :
  forall doc : App.Document,
    App.singly_selected (App.head doc ++ App.body doc) ->
    forall t, In t App.metaTags ->
      exists m, App.querySelector t (App.effect doc) = Some m
                /\ App.content m = Some (App.t_content t).
Proof.
  intros doc Hsingle t Hin. unfold App.querySelector, App.effect.
  cbn [App.head App.body].
  pose proof (metaTags_in_head (App.head doc, App.body doc) t Hin) as Hstay.
  rewrite (metaTags_split (App.head doc, App.body doc)) in *. cbn [fst snd] in *.
  destruct (App.in_head (App.head doc, App.body doc) t) eqn:E.
  - destruct (content_set (App.head doc)
                (List.filter (App.in_head (App.head doc, App.body doc)) App.metaTags))
      with (t := t) as (m & Hm & Hc).
    + apply distinct_keys_filter, metaTags_distinct_keys.
    + intros m t1 t2 Hm H1 H2. apply List.filter_In in H1, H2.
      apply (Hsingle m); try tauto. apply List.in_or_app. now left.
    + apply List.filter_In. now split.
    + exists m. split; [now apply find_app_found | exact Hc].
  - unfold App.in_head in Hstay. cbn [fst snd] in Hstay.
    apply orb_false_iff in Hstay. destruct Hstay as [Hh _].
    rewrite find_app_missing by exact Hh.
    apply content_set.
    + apply distinct_keys_filter, metaTags_distinct_keys.
    + intros m t1 t2 Hm H1 H2. apply List.filter_In in H1, H2.
      apply (Hsingle m); try tauto. apply List.in_or_app. now right.
    + apply List.filter_In. split; [exact Hin | now rewrite E].
Qed.

(** The stale description is brought up to date. *)
Lemma meta_effect_sets_each_content_witness :
  App.singly_selected (App.head stale_document ++ App.body stale_document)
  /\ exists m, App.querySelector (App.mkMetaTag (Some "description") None App.site_description)
                 (App.effect stale_document) = Some m
               /\ App.content m = Some App.site_description.
Proof.
  assert (H : App.singly_selected (App.head stale_document ++ App.body stale_document)).
  { intros m t1 t2 Hm H1 H2 Hs1 Hs2. cbn in Hm, H1, H2.
    destruct Hm as [<- | [<- | [<- | []]]];
      repeat (destruct H1 as [<- | H1]); try contradiction;
      repeat (destruct H2 as [<- | H2]); try contradiction;
      first [reflexivity | vm_compute in Hs1; discriminate | vm_compute in Hs2; discriminate]. }
  split; [exact H|].
  apply (meta_effect_sets_each_content stale_document H
           (App.mkMetaTag (Some "description") None App.site_description)).
  now left.
Defined.

Lemma unselected_by_metaTags (p : App.MetaTag -> bool) (m : App.Meta) :
  existsb (fun t => App.selects t m) App.metaTags = false ->
  existsb (fun t => App.selects t m) (List.filter p App.metaTags) = false.
Proof. apply unselected_by_fewer. Qed.

(** The effect only adds what is missing: afterwards the selector of each
    of the eight tags finds an element; every child of [head] that was
    there is still at its place among the children of [head], and every
    other element at its place among those outside [head], with its name
    and property, and with its content too unless a tag selects it;
    nothing is added outside [head], and at most eight elements are added
    to [head], after its last child. *)
Theorem meta_effect_adds_what_is_missing_only :
  forall doc : App.Document,
    (forall t, In t App.metaTags ->
               exists m, App.querySelector t (App.effect doc) = Some m
                         /\ App.selects t m = true)
    /\ (forall i m, App.head doc !! i = Some m ->
          exists m', App.head (App.effect doc) !! i = Some m'
                     /\ App.name m' = App.name m /\ App.property m' = App.property m
                     /\ (existsb (fun t => App.selects t m) App.metaTags = false -> m' = m))
    /\ (forall i m, App.body doc !! i = Some m ->
          exists m', App.body (App.effect doc) !! i = Some m'
                     /\ App.name m' = App.name m /\ App.property m' = App.property m
                     /\ (existsb (fun t => App.selects t m) App.metaTags = false -> m' = m))
    /\ length (App.body (App.effect doc)) = length (App.body doc)
    /\ (length (App.head doc) <= length (App.head (App.effect doc))
        <= length (App.head doc) + 8)%nat
    /\ App.title (App.effect doc) = App.site_title.
Proof.
  intros doc. unfold App.querySelector, App.effect. cbn [App.head App.body App.title].
  rewrite (metaTags_split (App.head doc, App.body doc)). cbn [fst snd].
  set (ms := (App.head doc, App.body doc)).
  split; [|split; [|split; [|split; [|split]]]].
  - intros t Hin.
    assert (Hk : App.keyed t = true).
    { assert (Hall : forallb App.keyed App.metaTags = true) by reflexivity.
      rewrite forallb_forall in Hall. now apply Hall. }
    assert (Hex : existsb (App.selects t)
                    (App.forEach_in (List.filter (App.in_head ms) App.metaTags) (App.head doc)
                     ++ App.forEach_in
                          (List.filter (fun t0 => negb (App.in_head ms t0)) App.metaTags)
                          (App.body doc)) = true).
    { rewrite existsb_app. destruct (App.in_head ms t) eqn:E.
      - rewrite forEach_finds_all; [reflexivity | | exact Hk].
        apply List.filter_In. now split.
      - unfold App.in_head, ms in E. cbn [fst snd] in E.
        apply orb_false_iff in E. destruct E as [_ Hb]. apply negb_false_iff in Hb.
        unfold App.found in Hb. rewrite (forEach_keeps_found t _ _ Hb).
        apply orb_true_r. }
    destruct (find_of_existsb _ _ Hex) as [m Hm].
    exists m. split; [exact Hm|]. now apply List.find_some in Hm.
  - intros i m Hi.
    destruct (forEach_lookup (App.head doc)
                (List.filter (App.in_head ms) App.metaTags) i m Hi)
      as (m' & Hm' & Hattr & Hsame).
    exists m'. unfold App.attributes in Hattr. injection Hattr as Hn Hp.
    repeat split; auto. intros H. now apply Hsame, unselected_by_metaTags.
  - intros i m Hi.
    destruct (forEach_lookup (App.body doc)
                (List.filter (fun t => negb (App.in_head ms t)) App.metaTags) i m Hi)
      as (m' & Hm' & Hattr & Hsame).
    exists m'. unfold App.attributes in Hattr. injection Hattr as Hn Hp.
    repeat split; auto. intros H. now apply Hsame, unselected_by_metaTags.
  - apply forEach_in_length_found. intros t Ht. apply List.filter_In in Ht.
    destruct Ht as [_ Ht]. apply negb_true_iff in Ht.
    unfold App.in_head, ms in Ht. cbn [fst snd] in Ht.
    apply orb_false_iff in Ht. destruct Ht as [_ Hb]. now apply negb_false_iff in Hb.
  - pose proof (forEach_length (List.filter (App.in_head ms) App.metaTags) (App.head doc)).
    pose proof (List.filter_length_le (App.in_head ms) App.metaTags) as Hle.
    change (length App.metaTags) with 8%nat in Hle. lia.
  - reflexivity.
Qed.
